(** * pandas.stats.moments: rolling and exponentially-weighted moments

    A shallow embedding of [pandas/stats/moments.py].  The Python module is a
    thin layer over three collaborators: numpy's float64 arrays, the labelled
    containers of pandas.core (Series, DataFrame) and the compiled reducers of
    [pandas._tseries].  The layer itself (argument checking, shape dispatch,
    alignment of paired operands, the warm-up gate of the exponentially
    weighted moments, the pairwise matrix builder) is translated function by
    function, with the names of the source. *)

From Stdlib Require Import ZArith List Lia Bool.
From Stdlib Require Import Floats.SpecFloat.
From stdpp Require Import base option list gmap strings.

Local Open Scope string_scope.
Local Open Scope Z_scope.
Local Open Scope list_scope.

(** ** IEEE 754 binary64 values

    numpy's float64 and Python's [float] are binary64 numbers.  They are
    modelled by the Standard Library's executable specification of IEEE
    arithmetic ([spec_float], round to nearest even) at precision 53 and
    maximal exponent 1024. *)

Module Float64.

Definition float : Type := spec_float.

Definition prec : Z := 53.
Definition emax : Z := 1024.

Definition nan : float := S754_nan.
Definition zero : float := S754_zero false.

Definition add : float -> float -> float := SFadd prec emax.
Definition sub : float -> float -> float := SFsub prec emax.
Definition mul : float -> float -> float := SFmul prec emax.
Definition div : float -> float -> float := SFdiv prec emax.
Definition sqrt : float -> float := SFsqrt prec emax.

(** Conversion of a Python [int] (exact below 2^53). *)
Definition of_Z (z : Z) : float := binary_normalize prec emax z 0 false.

Definition one : float := Eval cbv in of_Z 1.
Definition two : float := Eval cbv in of_Z 2.

(** [np.isnan], [np.isinf], [np.isfinite] on one element. *)
Definition isnan (x : float) : bool :=
  match x with S754_nan => true | _ => false end.

Definition isinf (x : float) : bool :=
  match x with S754_infinity _ => true | _ => false end.

Definition isfinite (x : float) : bool :=
  match x with S754_zero _ | S754_finite _ _ _ => true | _ => false end.

(** [x == 0.0] on Python floats: both signed zeros compare equal to zero. *)
Definition is_zero (x : float) : bool :=
  match x with S754_zero _ => true | _ => false end.

(** [bool.astype(float)]. *)
Definition of_bool (b : bool) : float := if b then one else zero.

End Float64.

Import Float64.

#[global] Arguments add : simpl never.
#[global] Arguments sub : simpl never.
#[global] Arguments mul : simpl never.
#[global] Arguments div : simpl never.
#[global] Arguments sqrt : simpl never.
#[global] Arguments of_Z : simpl never.

(** ** Exceptions and the log of array computations

    Python code either returns or raises.  To speak about what has been
    computed on the input before an exception surfaces, every operation that
    touches array data records an event; a computation is the list of events
    it performed together with its exception or value. *)

Inductive exn : Type :=
  | Exception (msg : string)   (* the bare [Exception] raised by moments.py *)
  | ZeroDivisionError          (* Python scalar division by zero *)
  | TypeError                  (* an operand of the wrong Python type *)
  | ValueError                 (* numpy: shapes do not broadcast, empty argmax *)
  | IndexError                 (* numpy: no first column to index *)
  | KeyError                   (* a column that the table does not have *)
  | AttributeError.            (* an operand without the method called on it *)

Inductive event : Type :=
  | EvAdd | EvSub | EvMul | EvDiv | EvPow | EvSqrt  (* elementwise arithmetic *)
  | EvIsFinite                                 (* [np.isfinite(values)] *)
  | EvKillInf                                  (* copy, infinities to NaN *)
  | EvFillNaN                                  (* [result[np.isnan(result)] = 0] *)
  | EvKernel                                   (* one call of a compiled reducer *)
  | EvAlign                                    (* index alignment of two containers *)
  | EvAsfreq.                                  (* conforming to a time rule *)

Definition M (A : Type) : Type := (list event * (exn + A))%type.

Definition trace {A} (m : M A) : list event := fst m.
Definition res {A} (m : M A) : exn + A := snd m.

Definition ret {A} (a : A) : M A := ([], inr a).
Definition raise {A} (e : exn) : M A := ([], inl e).
Definition tick (e : event) : M unit := ([e], inr tt).

Definition bind {A B} (m : M A) (f : A -> M B) : M B :=
  match snd m with
  | inl e => (fst m, inl e)
  | inr a => (fst m ++ fst (f a), snd (f a))
  end.

#[global] Instance M_ret : MRet M := @ret.
#[global] Instance M_bind : MBind M := fun A B f m => bind m f.
#[global] Instance M_fmap : FMap M := fun A B f m => bind m (fun a => ret (f a)).

(** Python's scalar [a / b] on floats: IEEE division, except that a zero
    divisor raises. *)
Definition py_div (a b : float) : M float :=
  if is_zero b then raise ZeroDivisionError else ret (div a b).

(** A loop over a list that threads an accumulator. *)
Fixpoint foldM_M {A B} (f : B -> A -> M B) (b : B) (l : list A) : M B :=
  match l with
  | [] => ret b
  | a :: l' => b' ← f b a; foldM_M f b' l'
  end.

(** Traversal of a list, left to right, stopping at the first exception. *)
Fixpoint mapM_M {A B} (f : A -> M B) (l : list A) : M (list B) :=
  match l with
  | [] => ret []
  | a :: l' => b ← f a; bs ← mapM_M f l'; ret (b :: bs)
  end.

(** ** numpy: float64 arrays

    A raw array is one-dimensional, or two-dimensional and stored by columns
    (the layout [np.apply_along_axis(f, 0, values)] walks).  Arithmetic between
    a one- and a two-dimensional raw array, and broadcasting of unit axes of
    two-dimensional arrays, are not part of the model and are answered with
    [ValueError]; moments.py itself only combines arrays of one shape. *)

Inductive ndarray : Type :=
  | Arr1 (v : list float)
  | Arr2 (cols : list (list float)).

Module Np.

(** Elementwise combination of two one-dimensional arrays, with numpy's
    broadcasting of a length-one operand. *)
Definition broadcast1 (f : float -> float -> float) (a b : list float)
  : M (list float) :=
  if decide (length a = length b) then ret (zip_with f a b)
  else match a, b with
       | [x], _ => ret (map (f x) b)
       | _, [y] => ret (map (fun x => f x y) a)
       | _, _ => raise ValueError
       end.

Definition same_shape2 (a b : list (list float)) : bool :=
  bool_decide (map (@length float) a = map (@length float) b).

Definition broadcast (f : float -> float -> float) (a b : ndarray) : M ndarray :=
  match a, b with
  | Arr1 x, Arr1 y => Arr1 <$> broadcast1 f x y
  | Arr2 x, Arr2 y =>
      if same_shape2 x y then ret (Arr2 (zip_with (zip_with f) x y))
      else raise ValueError
  | _, _ => raise ValueError
  end.

(** [values[np.isinf(values)] = np.NaN] and [result[np.isnan(result)] = 0],
    one element at a time. *)
Definition inf_to_nan (x : float) : float := if isinf x then nan else x.
Definition nan_to_zero (x : float) : float := if isnan x then zero else x.

(** A function of whole columns applied to the array, or to each column. *)
Definition map_cols (g : list float -> list float) (a : ndarray) : ndarray :=
  match a with
  | Arr1 v => Arr1 (g v)
  | Arr2 cols => Arr2 (map g cols)
  end.

Definition map_nd (f : float -> float) (a : ndarray) : ndarray :=
  match a with
  | Arr1 v => Arr1 (map f v)
  | Arr2 cols => Arr2 (map (map f) cols)
  end.

(** [len(a)]: the extent of the first axis. *)
Definition len (a : ndarray) : nat :=
  match a with
  | Arr1 v => length v
  | Arr2 cols => match cols with [] => 0%nat | c :: _ => length c end
  end.

(** [b.argmax()] on a boolean array: the position of the first [True], 0 when
    there is none; an empty array has no argmax. *)
Definition argmax (b : list bool) : M nat :=
  match b with
  | [] => raise ValueError
  | _ => ret (default 0%nat (fst <$> list_find (fun x => x = true) b))
  end.

(** A slice bound as Python normalises it against a length [n]. *)
Definition slice_bound (n k : Z) : Z :=
  if k <? 0 then Z.max 0 (k + n) else Z.min k n.

(** [v[start:stop] = x]. *)
Definition set_slice (v : list float) (start stop : Z) (x : float) : list float :=
  let n := Z.of_nat (length v) in
  let a := slice_bound n start in
  let b := slice_bound n stop in
  imap (fun i y => if (a <=? Z.of_nat i) && (Z.of_nat i <? b) then x else y) v.

(** [np.apply_along_axis(f, 0, values)] for [f] returning an array: [f] runs
    on the array itself when it is one-dimensional and on each column
    otherwise; there must be a first column to size the output, and every
    later result must fit the shape of the first. *)
Definition apply_along_axis (f : list float -> M (list float)) (values : ndarray)
  : M ndarray :=
  match values with
  | Arr1 v => Arr1 <$> f v
  | Arr2 [] => raise IndexError
  | Arr2 (c :: cols) =>
      r ← f c;
      rs ← mapM_M f cols;
      if forallb (fun r' => Nat.eqb (length r') (length r)) rs
      then ret (Arr2 (r :: rs))
      else raise ValueError
  end.

End Np.

(** ** Labelled containers (pandas.core)

    A Series is a one-dimensional array with a row index, a DataFrame a
    two-dimensional one with a row index and named columns.  In the pandas
    this module belongs to, Series is a subclass of [np.ndarray] (the
    dispatcher of paired moments relies on it: its first test sends two
    Series down the raw-array path) while DataFrame is not. *)

Definition label : Type := Z.

Inductive data : Type :=
  | NDArray (a : ndarray)
  | Series (index : list label) (values : list float)
  | DataFrame (index : list label) (columns : list string)
              (values : list (list float)).

Module Labeled.

(** [isinstance(d, np.ndarray)]. *)
Definition is_ndarray (d : data) : bool :=
  match d with NDArray _ | Series _ _ => true | DataFrame _ _ _ => false end.

Definition is_frame (d : data) : bool :=
  match d with DataFrame _ _ _ => true | _ => false end.

(** [isinstance(d, (DataFrame, Series))]. *)
Definition is_labelled (d : data) : bool :=
  match d with NDArray _ => false | _ => true end.

(** The array under a value that is an [np.ndarray]. *)
Definition as_ndarray (d : data) : M ndarray :=
  match d with
  | NDArray a => ret a
  | Series _ v => ret (Arr1 v)
  | DataFrame _ _ _ => raise TypeError
  end.

(** [isinstance(b, type(a))]. *)
Definition isinstance_of (b a : data) : bool :=
  match a, b with
  | NDArray _, (NDArray _ | Series _ _) => true
  | Series _ _, Series _ _ => true
  | DataFrame _ _ _, DataFrame _ _ _ => true
  | _, _ => false
  end.

(** [len(d)]. *)
Definition len (d : data) : nat :=
  match d with
  | NDArray a => Np.len a
  | Series _ v => length v
  | DataFrame idx _ _ => length idx
  end.

(** Modelled from the spec: the union of two indices, the outer join of
    "align the pair on the union of their indices"; the labels of the left
    operand come first, then the new labels of the right one. *)
Definition index_union {A} `{EqDecision A} (a b : list A) : list A :=
  a ++ filter (fun x => x ∉ a) b.

Definition position {A} `{EqDecision A} (x : A) (l : list A) : option nat :=
  fst <$> list_find (fun y => y = x) l.

(** Modelled from the spec: conforming values to a new index; a label the
    old index does not have gets the missing-value marker. *)
Definition reindex (idx : list label) (v : list float) (new : list label)
  : list float :=
  map (fun l => default nan (position l idx ≫= fun i => v !! i)) new.

Definition reindex_frame (idx : list label) (cols : list string)
    (vals : list (list float)) (new_idx : list label) (new_cols : list string)
  : list (list float) :=
  map (fun c => match position c cols ≫= (fun j => vals !! j) with
                | Some col => reindex idx col new_idx
                | None => replicate (length new_idx) nan
                end) new_cols.

(** [Series(v, index)]: the values must be one-dimensional and as long as
    the index. *)
Definition mk_series (idx : list label) (a : ndarray) : M data :=
  match a with
  | Arr1 v => if decide (length v = length idx) then ret (Series idx v)
              else raise ValueError
  | Arr2 _ => raise ValueError
  end.

(** [DataFrame(v, index=index, columns=columns)] from a two-dimensional
    array of matching shape. *)
Definition mk_frame (idx : list label) (cols : list string) (a : ndarray)
  : M data :=
  match a with
  | Arr2 vals =>
      if bool_decide (length vals = length cols)
         && forallb (fun c => Nat.eqb (length c) (length idx)) vals
      then ret (DataFrame idx cols vals)
      else raise ValueError
  | Arr1 _ => raise ValueError
  end.

Definition map_values (f : float -> float) (d : data) : data :=
  match d with
  | NDArray a => NDArray (Np.map_nd f a)
  | Series idx v => Series idx (map f v)
  | DataFrame idx cols vals => DataFrame idx cols (map (map f) vals)
  end.

(** Arithmetic of a container with a Python scalar, and elementwise
    functions such as [np.sqrt]. *)
Definition scalar_op (ev : event) (f : float -> float) (d : data) : M data :=
  _ ← tick ev; ret (map_values f d).

(** Arithmetic of two containers.  Raw arrays combine by position.  Two
    Series (two DataFrames) with the same labels combine by position; with
    different labels both are first conformed to the union of their labels.
    A Series and a raw array combine by position into a Series.  A DataFrame
    never meets another kind of operand in moments.py. *)
Definition binop (ev : event) (f : float -> float -> float) (a b : data)
  : M data :=
  _ ← tick ev;
  match a, b with
  | NDArray x, NDArray y => NDArray <$> Np.broadcast f x y
  | Series i x, NDArray y => r ← Np.broadcast f (Arr1 x) y; mk_series i r
  | NDArray x, Series j y => r ← Np.broadcast f x (Arr1 y); mk_series j r
  | Series i x, Series j y =>
      if decide (i = j) then r ← Np.broadcast1 f x y; mk_series i (Arr1 r)
      else
        _ ← tick EvAlign;
        let u := index_union i j in
        ret (Series u (zip_with f (reindex i x u) (reindex j y u)))
  | DataFrame i c x, DataFrame j d y =>
      if bool_decide (i = j) && bool_decide (c = d) then
        r ← Np.broadcast f (Arr2 x) (Arr2 y); mk_frame i c r
      else
        _ ← tick EvAlign;
        let u := index_union i j in
        let cs := index_union c d in
        ret (DataFrame u cs (zip_with (zip_with f) (reindex_frame i c x u cs)
                                                     (reindex_frame j d y u cs)))
  | _, _ => raise TypeError
  end.

(** [arg1.align(arg2, join='outer')] on two DataFrames. *)
Definition align_frames (a b : data) : M (data * data) :=
  match a, b with
  | DataFrame i c x, DataFrame j d y =>
      _ ← tick EvAlign;
      let u := index_union i j in
      let cs := index_union c d in
      ret (DataFrame u cs (reindex_frame i c x u cs),
           DataFrame u cs (reindex_frame j d y u cs))
  | _, _ => raise TypeError
  end.

(** [arg1.align(arg2, axis=0, join='outer')]: a DataFrame and a Series are
    conformed to the union of their row labels; a raw array has no [align]. *)
Definition align_rows (a b : data) : M (data * data) :=
  match a, b with
  | DataFrame i c x, Series j y =>
      _ ← tick EvAlign;
      let u := index_union i j in
      ret (DataFrame u c (reindex_frame i c x u c), Series u (reindex j y u))
  | DataFrame _ _ _, NDArray _ => raise AttributeError
  | _, _ => raise TypeError
  end.

Definition columns_of (d : data) : list string :=
  match d with DataFrame _ c _ => c | _ => [] end.

Definition index_of (d : data) : list label :=
  match d with Series i _ | DataFrame i _ _ => i | NDArray _ => [] end.

(** [col in X]. *)
Definition has_column (d : data) (col : string) : bool :=
  bool_decide (col ∈ columns_of d).

(** [X[col]]: a column of a DataFrame as a Series. *)
Definition getitem (d : data) (col : string) : M data :=
  match d with
  | DataFrame i c x =>
      match position col c ≫= (fun j => x !! j) with
      | Some v => ret (Series i v)
      | None => raise KeyError
      end
  | _ => raise TypeError
  end.

(** One column of [DataFrame(results, index=index, columns=columns)]: a
    Series is conformed to the index, a raw array must have its length, a
    column without a result is all missing. *)
Definition frame_column (index : list label) (r : option data)
  : M (list float) :=
  match r with
  | None => ret (replicate (length index) nan)
  | Some (Series i v) => ret (reindex i v index)
  | Some (NDArray (Arr1 v)) =>
      if decide (length v = length index) then ret v else raise ValueError
  | Some _ => raise ValueError
  end.

Definition frame_of_dict (results : gmap string data) (index : list label)
    (columns : list string) : M data :=
  vals ← mapM_M (fun c => frame_column index (results !! c)) columns;
  ret (DataFrame index columns vals).

End Labeled.

Import Labeled.

(** ** The compiled reducers (pandas._tseries)

    The Cython reducers are not part of moments.py.  The two whose values the
    properties below depend on are modelled from the specification; the
    others are parameters of the development. *)

Module Tseries.

Definition kernel : Type := list float -> Z -> Z -> list float.

(** Modelled from the spec: the trailing window ending at position [i],
    "using only values within [max(0,i-W+1), i]". *)
Definition window (x : list float) (W : Z) (i : nat) : list float :=
  let lo := Z.to_nat (Z.max 0 (Z.of_nat i - W + 1)) in
  take (S i - lo) (drop lo x).

(** Modelled from the spec: the non-missing entries of a window. *)
Definition valid (w : list float) : list float :=
  filter (fun v => isnan v = false) w.

(** Modelled from the spec: the contract of a windowed reducer, "y[i] is the
    statistic over the trailing window ending at i, ... excluding missing
    entries from both the statistic and the count used against P.  If the
    count of non-missing values in the window < P, y[i] is missing". *)
Definition roll_reduce (stat : list float -> float) : kernel :=
  fun x W P =>
    imap (fun i _ => let obs := valid (window x W i) in
                     if P <=? Z.of_nat (length obs) then stat obs else nan) x.

(** Modelled from the spec: [_tseries.roll_sum], the windowed sum. *)
Definition roll_sum : kernel := roll_reduce (foldl add zero).

(** Modelled from the spec: the recursion of [_tseries.ewma], "y[0] =
    x[first_valid]; for subsequent non-missing x[t]: y[t] = (1-α)·y[t-1] +
    α·x[t]; missing inputs propagate the previous output unchanged.  Before
    the first non-missing index, output is missing", with α = 1/(1+com). *)
Fixpoint ewma_from (alpha : float) (prev : option float) (x : list float)
  : list float :=
  match x with
  | [] => []
  | c :: xs =>
      let y := match prev with
               | None => if isnan c then None else Some c
               | Some p => if isnan c then Some p
                           else Some (add (mul (sub one alpha) p) (mul alpha c))
               end in
      default nan y :: ewma_from alpha y xs
  end.

Definition ewma (x : list float) (com : float) : list float :=
  ewma_from (div one (add one com)) None x.

End Tseries.

Import Tseries.

(** A conforming step that changes nothing, for inputs that are already on
    the wanted calendar. *)
Definition asfreq_id (d : data) (rule : string) : M data := ret d.

(** A table with a missing and an infinite entry, on the labels 0, 1, 2. *)
Definition sample_frame : data :=
  DataFrame [0; 1; 2] ["a"; "b"]
    [[nan; of_Z 1; nan]; [of_Z 1; of_Z 2; S754_infinity false]].


(** ** moments.py *)

Section Moments.

(** [arg.asfreq(time_rule)], the calendar collaborator. *)
Variable asfreq : data -> string -> M data.

(** The reducers of [pandas._tseries] that are left abstract. *)
Variables roll_max roll_min roll_mean roll_median_cython : kernel.
Variables roll_var roll_skew roll_kurt : kernel.
Variable roll_quantile : list float -> Z -> Z -> float -> list float.
Variable roll_generic : list float -> Z -> Z -> (list float -> float) -> list float.

Definition _conv_timerule (arg : data) (time_rule : option string) : M data :=
  match time_rule with
  | Some rule =>
      if is_labelled arg then _ ← tick EvAsfreq; asfreq arg rule
      else ret arg
  | None => ret arg
  end.

Definition _process_data_structure (arg : data) (kill_inf : bool)
  : M ((ndarray -> M data) * ndarray) :=
  let '(return_hook, values) :=
    match arg with
    | DataFrame index columns values => (mk_frame index columns, Arr2 values)
    | Series index values => (mk_series index, Arr1 values)
    | NDArray a => ((fun v => ret (NDArray v)), a)
    end in
  if kill_inf then
    _ ← tick EvKillInf;
    ret (return_hook, Np.map_nd Np.inf_to_nan values)
  else ret (return_hook, values).

Definition _rolling_moment (arg : data) (window : Z)
    (func : list float -> Z -> option Z -> M (list float))
    (minp : option Z) (time_rule : option string) : M data :=
  arg ← _conv_timerule arg time_rule;
  let calc := fun x => func x window minp in
  '(return_hook, values) ← _process_data_structure arg true;
  result ← Np.apply_along_axis calc values;
  return_hook result.

Definition _require_min_periods (p : Z) : option Z -> Z -> Z :=
  fun minp window =>
    match minp with
    | None => window
    | Some minp => Z.max p minp
    end.

Definition _use_window (minp : option Z) (window : Z) : Z :=
  match minp with
  | None => window
  | Some minp => minp
  end.

Definition _rolling_func (func : kernel) (check_minp : option Z -> Z -> Z)
    (arg : data) (window : Z) (min_periods : option Z)
    (time_rule : option string) : M data :=
  let call_cython := fun arg window minp =>
    let minp := check_minp minp window in
    _ ← tick EvKernel; ret (func arg window minp) in
  _rolling_moment arg window call_cython min_periods time_rule.

Definition rolling_max := _rolling_func roll_max _use_window.
Definition rolling_min := _rolling_func roll_min _use_window.
Definition rolling_sum := _rolling_func roll_sum _use_window.
Definition rolling_mean := _rolling_func roll_mean _use_window.
Definition rolling_median := _rolling_func roll_median_cython _use_window.

Definition _ts_std : kernel := fun x w minp => map sqrt (roll_var x w minp).
Definition rolling_std := _rolling_func _ts_std (_require_min_periods 2).
Definition rolling_var := _rolling_func roll_var (_require_min_periods 2).
Definition rolling_skew := _rolling_func roll_skew (_require_min_periods 3).
Definition rolling_kurt := _rolling_func roll_kurt (_require_min_periods 4).

Definition rolling_quantile (arg : data) (window : Z) (quantile : float)
    (min_periods : option Z) (time_rule : option string) : M data :=
  let call_cython := fun arg window minp =>
    let minp := _use_window minp window in
    _ ← tick EvKernel; ret (roll_quantile arg window minp quantile) in
  _rolling_moment arg window call_cython min_periods time_rule.

Definition rolling_apply (arg : data) (window : Z) (func : list float -> float)
    (min_periods : option Z) (time_rule : option string) : M data :=
  let call_cython := fun arg window minp =>
    let minp := _use_window minp window in
    _ ← tick EvKernel; ret (roll_generic arg window minp func) in
  _rolling_moment arg window call_cython min_periods time_rule.

Definition rolling_count (arg : data) (window : Z) (time_rule : option string)
  : M data :=
  arg ← _conv_timerule arg time_rule;
  let window := Z.min window (Z.of_nat (len arg)) in
  '(return_hook, values) ← _process_data_structure arg false;
  _ ← tick EvIsFinite;
  let converted := Np.map_nd (fun x => of_bool (isfinite x)) values in
  result ← rolling_sum (NDArray converted) window (Some 1) time_rule;
  result ← as_ndarray result;
  _ ← tick EvFillNaN;
  let result := Np.map_nd Np.nan_to_zero result in
  return_hook result.

Definition _prep_binary (arg1 arg2 : data) : M (data * data) :=
  if negb (isinstance_of arg2 arg1)
  then raise (Exception "Input arrays must be of the same type!")
  else
    z2 ← scalar_op EvMul (mul zero) arg2;
    X ← binop EvAdd add arg1 z2;
    z1 ← scalar_op EvMul (mul zero) arg1;
    Y ← binop EvAdd add arg2 z1;
    ret (X, Y).

(** The branch of [_flex_binary_moment] whose first operand is a DataFrame. *)
Definition _flex_frame (arg1 arg2 : data) (f : data -> data -> M data)
  : M data :=
  if is_frame arg2 then
    '(X, Y) ← align_frames arg1 arg2;
    zy ← scalar_op EvMul (mul zero) Y;
    X ← binop EvAdd add X zy;
    zx ← scalar_op EvMul (mul zero) X;
    Y ← binop EvAdd add Y zx;
    let res_columns := index_union (columns_of arg1) (columns_of arg2) in
    results ← foldM_M (fun (results : gmap string data) col =>
                 if has_column X col && has_column Y col then
                   xc ← getitem X col;
                   yc ← getitem Y col;
                   r ← f xc yc;
                   ret (<[col := r]> results)
                 else ret results) ∅ res_columns;
    frame_of_dict results (index_of X) res_columns
  else
    let res_columns := columns_of arg1 in
    '(X, Y) ← align_rows arg1 arg2;
    results ← foldM_M (fun (results : gmap string data) col =>
                 xc ← getitem X col;
                 r ← f xc Y;
                 ret (<[col := r]> results)) ∅ res_columns;
    frame_of_dict results (index_of X) res_columns.

(** The source ends with the recursive call [_flex_binary_moment(arg2, arg1,
    f)].  It is reached when [arg1] is an array and [arg2] is not, so [arg2]
    is a DataFrame and the call runs the DataFrame branch on the swapped
    operands. *)
Definition _flex_binary_moment (arg1 arg2 : data) (f : data -> data -> M data)
  : M data :=
  if is_ndarray arg1 && is_ndarray arg2 then
    '(X, Y) ← _prep_binary arg1 arg2;
    f X Y
  else if is_frame arg1 then _flex_frame arg1 arg2 f
  else _flex_frame arg2 arg1 f.

Definition rolling_cov (arg1 arg2 : data) (window : Z) (min_periods : option Z)
    (time_rule : option string) : M data :=
  let _get_cov := fun X Y =>
    let mean := fun x => rolling_mean x window min_periods time_rule in
    s ← binop EvAdd add X Y;
    count ← rolling_count s window time_rule;
    cm1 ← scalar_op EvSub (fun c => sub c one) count;
    bias_adj ← binop EvDiv div count cm1;
    xy ← binop EvMul mul X Y;
    mxy ← mean xy;
    mx ← mean X;
    my ← mean Y;
    p ← binop EvMul mul mx my;
    d ← binop EvSub sub mxy p;
    binop EvMul mul d bias_adj in
  _flex_binary_moment arg1 arg2 _get_cov.

Definition rolling_corr (arg1 arg2 : data) (window : Z) (min_periods : option Z)
    (time_rule : option string) : M data :=
  let _get_corr := fun a b =>
    num ← rolling_cov a b window min_periods time_rule;
    sa ← rolling_std a window min_periods time_rule;
    sb ← rolling_std b window min_periods time_rule;
    den ← binop EvMul mul sa sb;
    binop EvDiv div num den in
  _flex_binary_moment arg1 arg2 _get_corr.

(** [all_results[k1][k2] = v] on a [defaultdict(dict)]. *)
Definition setitem2 {V} (d : gmap string (gmap string V)) (k1 k2 : string)
    (v : V) : gmap string (gmap string V) :=
  <[k1 := <[k2 := v]> (default ∅ (d !! k1))]> d.

(** The loops of [rolling_corr_pairwise] over a column list, for a paired
    statistic [corr]: the inner loop runs over [columns[i:]]. *)
Definition pairwise_loops (corr : string -> string -> M data)
    (columns : list string) : M (gmap string (gmap string data)) :=
  foldM_M (fun all_results '(i, k1) =>
      foldM_M (fun all_results k2 =>
          c ← corr k1 k2;
          let all_results := setitem2 all_results k1 k2 c in
          let all_results := setitem2 all_results k2 k1 c in
          ret all_results) all_results (drop i columns))
    ∅ (imap (fun i k => (i, k)) columns).

(** The result is the dictionary [all_results]; the Panel built from it is
    read through [panel_at] below. *)
Definition rolling_corr_pairwise (df : data) (window : Z)
    (min_periods : option Z) : M (gmap string (gmap string data)) :=
  match df with
  | DataFrame _ columns _ =>
      pairwise_loops (fun k1 k2 =>
          a ← getitem df k1;
          b ← getitem df k2;
          rolling_corr a b window min_periods None) columns
  | _ => raise AttributeError
  end.

Definition _get_center_of_mass (com span : option float) : M float :=
  match span with
  | Some span =>
      match com with
      | Some _ => raise (Exception "com and span are mutually exclusive")
      | None => ret (div (sub span one) two)
      end
  | None =>
      match com with
      | None => raise (Exception "Must pass either com or span")
      | Some com => ret com
      end
  end.

(** [notnull(arr).argmax()]. *)
Definition _first_valid_index (arr : list float) : M nat :=
  Np.argmax (map (fun x => negb (isnan x)) arr).

Definition ewma (arg : data) (com span : option float) (min_periods : Z)
    (time_rule : option string) : M data :=
  com ← _get_center_of_mass com span;
  arg ← _conv_timerule arg time_rule;
  let _ewma := fun v =>
    _ ← tick EvKernel;
    let result := Tseries.ewma v com in
    first_index ← _first_valid_index v;
    ret (Np.set_slice result (Z.of_nat first_index)
           (Z.of_nat first_index + min_periods) nan) in
  '(return_hook, values) ← _process_data_structure arg true;
  output ← Np.apply_along_axis _ewma values;
  return_hook output.

(** The scalar [(1.0 + 2.0 * com) / (2.0 * com)]. *)
Definition bias_factor (com : float) : M float :=
  py_div (add one (mul two com)) (mul two com).

Definition ewmvar (arg : data) (com span : option float) (min_periods : Z)
    (bias : bool) (time_rule : option string) : M data :=
  com ← _get_center_of_mass com span;
  arg ← _conv_timerule arg time_rule;
  sq ← binop EvMul mul arg arg;
  moment2nd ← ewma sq (Some com) None min_periods None;
  moment1st ← ewma arg (Some com) None min_periods None;
  m1sq ← scalar_op EvPow (fun x => mul x x) moment1st;
  result ← binop EvSub sub moment2nd m1sq;
  if negb bias then
    factor ← bias_factor com;
    scalar_op EvMul (fun x => mul x factor) result
  else ret result.

Definition ewmstd (arg : data) (com span : option float) (min_periods : Z)
    (bias : bool) (time_rule : option string) : M data :=
  result ← ewmvar arg com span min_periods bias time_rule;
  scalar_op EvSqrt sqrt result.

Definition ewmvol := ewmstd.

Definition ewmcov (arg1 arg2 : data) (com span : option float)
    (min_periods : Z) (bias : bool) (time_rule : option string) : M data :=
  '(X, Y) ← _prep_binary arg1 arg2;
  X ← _conv_timerule X time_rule;
  Y ← _conv_timerule Y time_rule;
  let mean := fun x => ewma x com span min_periods None in
  xy ← binop EvMul mul X Y;
  mxy ← mean xy;
  mx ← mean X;
  my ← mean Y;
  p ← binop EvMul mul mx my;
  result ← binop EvSub sub mxy p;
  if negb bias then
    factor ← match com with
             | Some com => bias_factor com
             | None => raise TypeError
             end;
    scalar_op EvMul (fun x => mul x factor) result
  else ret result.

Definition ewmcorr (arg1 arg2 : data) (com span : option float)
    (min_periods : Z) (time_rule : option string) : M data :=
  '(X, Y) ← _prep_binary arg1 arg2;
  X ← _conv_timerule X time_rule;
  Y ← _conv_timerule Y time_rule;
  let mean := fun x => ewma x com span min_periods None in
  let var := fun x => ewmvar x com span min_periods true None in
  xy ← binop EvMul mul X Y;
  mxy ← mean xy;
  mx ← mean X;
  my ← mean Y;
  p ← binop EvMul mul mx my;
  num ← binop EvSub sub mxy p;
  vx ← var X;
  vy ← var Y;
  vv ← binop EvMul mul vx vy;
  den ← scalar_op EvSqrt sqrt vv;
  binop EvDiv div num den.

(** *** Statements of the specification, for comparison *)

(** The configuration error of the exponentially weighted operations: the
    exception for a pair [com], [span] that names both or neither. *)
Definition config_error (com span : option float) : option exn :=
  match com, span with
  | Some _, Some _ => Some (Exception "com and span are mutually exclusive")
  | None, None => Some (Exception "Must pass either com or span")
  | _, _ => None
  end.

(** A reducer answers with an array as long as its input. *)
Definition length_preserving (k : kernel) : Prop :=
  forall x w p, length (k x w p) = length x.

(** Well-formed inputs: a two-dimensional array is rectangular and has a
    column; a Series has one value per label; a DataFrame has one column of
    values per column name, at least one, each with one value per label. *)
Definition wf (d : data) : Prop :=
  match d with
  | NDArray (Arr1 _) => True
  | NDArray (Arr2 cols) =>
      cols <> [] /\ Forall (fun c => length c = len d) cols
  | Series index values => length values = length index
  | DataFrame index columns values =>
      values <> [] /\ length values = length columns
      /\ Forall (fun c => length c = length index) values
  end.

(** Two values of one kind with the same labels, the same column names and
    the same extents. *)
Definition same_shape (a b : data) : Prop :=
  match a, b with
  | NDArray (Arr1 v), NDArray (Arr1 w) => length v = length w
  | NDArray (Arr2 x), NDArray (Arr2 y) =>
      map (@length float) x = map (@length float) y
  | Series i v, Series j w => i = j /\ length v = length w
  | DataFrame i c x, DataFrame j d y =>
      i = j /\ c = d /\ map (@length float) x = map (@length float) y
  | _, _ => False
  end.

(** The value columns: the array itself when it has one dimension. *)
Definition columns_data (d : data) : list (list float) :=
  match d with
  | NDArray (Arr1 v) => [v]
  | NDArray (Arr2 cols) => cols
  | Series _ v => [v]
  | DataFrame _ _ vals => vals
  end.

(** The same container with [g] applied to each value column. *)
Definition map_columns (g : list float -> list float) (d : data) : data :=
  match d with
  | NDArray a => NDArray (Np.map_cols g a)
  | Series i v => Series i (g v)
  | DataFrame i c vals => DataFrame i c (map g vals)
  end.

(** What [rolling_count] computes in each value column of the conformed
    input, for a window already clipped to the length of the input: the
    windowed sum, with minimum sample count 1, of the indicator of the finite
    entries, its missing values replaced by zero. *)
Definition count_column (W : Z) (c : list float) : list float :=
  map Np.nan_to_zero
      (roll_sum (map Np.inf_to_nan (map (fun x => of_bool (isfinite x)) c)) W 1).

(** The first valid position of a column, as [_first_valid_index] finds it
    on a column that is not empty. *)
Definition first_valid (v : list float) : nat :=
  default 0%nat
    (fst <$> list_find (fun x => x = true) (map (fun x => negb (isnan x)) v)).

(** What [ewma] computes in each value column of the conformed input. *)
Definition ewma_column (com : float) (min_periods : Z) (c : list float)
  : list float :=
  let v := map Np.inf_to_nan c in
  Np.set_slice (Tseries.ewma v com) (Z.of_nat (first_valid v))
    (Z.of_nat (first_valid v) + min_periods) nan.

(** A computation returns a value shaped like [a]. *)
Definition returns_like (a : data) (m : M data) : Prop :=
  exists r, res m = inr r /\ same_shape a r.

(** The single-argument operations over a window, and the exponentially
    weighted ones, as two families. *)
Inductive window_op : Type :=
  | RollingCount | RollingMax | RollingMin | RollingSum | RollingMean
  | RollingMedian | RollingStd | RollingVar | RollingSkew | RollingKurt
  | RollingQuantile (quantile : float)
  | RollingApply (func : list float -> float).

Definition run_window_op (op : window_op) (arg : data) (window : Z)
    (min_periods : option Z) (time_rule : option string) : M data :=
  match op with
  | RollingCount => rolling_count arg window time_rule
  | RollingMax => rolling_max arg window min_periods time_rule
  | RollingMin => rolling_min arg window min_periods time_rule
  | RollingSum => rolling_sum arg window min_periods time_rule
  | RollingMean => rolling_mean arg window min_periods time_rule
  | RollingMedian => rolling_median arg window min_periods time_rule
  | RollingStd => rolling_std arg window min_periods time_rule
  | RollingVar => rolling_var arg window min_periods time_rule
  | RollingSkew => rolling_skew arg window min_periods time_rule
  | RollingKurt => rolling_kurt arg window min_periods time_rule
  | RollingQuantile q => rolling_quantile arg window q min_periods time_rule
  | RollingApply f => rolling_apply arg window f min_periods time_rule
  end.

Inductive ewm_op : Type :=
  | Ewma | Ewmvar (bias : bool) | Ewmstd (bias : bool) | Ewmvol (bias : bool).

Definition run_ewm_op (op : ewm_op) (arg : data) (com span : option float)
    (min_periods : Z) (time_rule : option string) : M data :=
  match op with
  | Ewma => ewma arg com span min_periods time_rule
  | Ewmvar bias => ewmvar arg com span min_periods bias time_rule
  | Ewmstd bias => ewmstd arg com span min_periods bias time_rule
  | Ewmvol bias => ewmvol arg com span min_periods bias time_rule
  end.



(** [all_results[k1][k2]]. *)
Definition lookup2 {V} (d : gmap string (gmap string V)) (k1 k2 : string)
  : option V :=
  d !! k1 ≫= fun row => row !! k2.

(** The value of a Series at a label. *)
Definition series_at (d : data) (t : label) : option float :=
  match d with
  | Series i v => position t i ≫= fun n => v !! n
  | _ => None
  end.

(** Modelled from the spec: the "three-axis structure indexed by (time,
    column, column)" that [Panel.from_dict(all_results).swapaxes('items',
    'major')] builds, read at [M[t][c_i][c_j]]. *)
Definition panel_at (all_results : gmap string (gmap string data)) (t : label)
    (ci cj : string) : option float :=
  lookup2 all_results ci cj ≫= fun s => series_at s t.

(** The pairs of the upper triangle of a column list, row by row: each
    column with itself and with the columns after it. *)
Definition upper_pairs (columns : list string) : list (string * string) :=
  concat (imap (fun i k1 => map (fun k2 => (k1, k2)) (drop i columns)) columns).

(** One statistic computed and stored at an entry and at its transpose. *)
Definition store_pair (corr : string -> string -> M data)
    (all_results : gmap string (gmap string data)) (p : string * string)
  : M (gmap string (gmap string data)) :=
  c ← corr p.1 p.2;
  ret (setitem2 (setitem2 all_results p.1 p.2 c) p.2 p.1 c).

(** What the dictionary holds once the pairs of [pre] are done: each pair
    has, at its entry, the statistic computed for it. *)
Definition stored (corr : string -> string -> M data)
    (pre : list (string * string)) (d : gmap string (gmap string data)) : Prop :=
  forall a b, (a, b) ∈ pre ->
    exists c, res (corr a b) = inr c /\ lookup2 d a b = Some c
              /\ lookup2 d b a = Some c.

(** The statistic the loops of [rolling_corr_pairwise] compute for two
    column names: [rolling_corr(df[k1], df[k2], window, min_periods)]. *)
Definition column_corr (df : data) (window : Z) (min_periods : option Z)
    (k1 k2 : string) : M data :=
  a ← getitem df k1;
  b ← getitem df k2;
  rolling_corr a b window min_periods None.

(** One side of a pair perturbed by zero times the other one, as
    [_prep_binary] computes [arg1 + 0 * arg2] at each position. *)
Definition masked (a b : float) : float := add a (mul zero b).

(** The variance as the specification words it: [ewma(x²) − ewma(x)²],
    multiplied, when [bias] is false, by the correction factor
    [(1+2·com)/(2·com)] taken as an IEEE division. *)
Definition ewmvar_spec (arg : data) (com : float) (min_periods : Z)
    (bias : bool) : M data :=
  sq ← binop EvMul mul arg arg;
  moment2nd ← ewma sq (Some com) None min_periods None;
  moment1st ← ewma arg (Some com) None min_periods None;
  m1sq ← scalar_op EvPow (fun x => mul x x) moment1st;
  result ← binop EvSub sub moment2nd m1sq;
  if negb bias then
    scalar_op EvMul
      (fun x => mul x (div (add one (mul two com)) (mul two com))) result
  else ret result.

(** The correlation as the specification words it: [ewmcov(x,y) /
    sqrt(ewmvar(x,bias=true)·ewmvar(y,bias=true))], every operation called
    with the same [com], [span], [min_periods] and [time_rule], and [ewmcov]
    with its default [bias=False]. *)
Definition ewmcorr_spec (arg1 arg2 : data) (com span : option float)
    (min_periods : Z) (time_rule : option string) : M data :=
  cov ← ewmcov arg1 arg2 com span min_periods false time_rule;
  vx ← ewmvar arg1 com span min_periods true time_rule;
  vy ← ewmvar arg2 com span min_periods true time_rule;
  vv ← binop EvMul mul vx vy;
  den ← scalar_op EvSqrt sqrt vv;
  binop EvDiv div cov den.

(** The same quotient with the covariance left uncorrected ([bias=True]) and
    the variances taken of the aligned, conformed operands. *)
Definition ewmcorr_aligned (arg1 arg2 : data) (com span : option float)
    (min_periods : Z) (time_rule : option string) : M data :=
  cov ← ewmcov arg1 arg2 com span min_periods true time_rule;
  '(X, Y) ← _prep_binary arg1 arg2;
  X ← _conv_timerule X time_rule;
  Y ← _conv_timerule Y time_rule;
  vx ← ewmvar X com span min_periods true None;
  vy ← ewmvar Y com span min_periods true None;
  vv ← binop EvMul mul vx vy;
  den ← scalar_op EvSqrt sqrt vv;
  binop EvDiv div cov den.

(** ** Properties *)

(** *** The computation monad *)

Lemma res_bind {A B} (m : M A) (f : A -> M B) :
  res (m ≫= f) = match res m with inl e => inl e | inr a => res (f a) end.
Proof.
  unfold mbind, M_bind, bind, res. destruct m as [t [e | a]]; reflexivity.
Qed.

Lemma res_ret {A} (a : A) : res (ret a) = inr a.
Proof. reflexivity. Qed.

Lemma res_raise {A} (e : exn) : res (@raise A e) = inl e.
Proof. reflexivity. Qed.

Lemma res_fmap {A B} (g : A -> B) (m : M A) :
  res (g <$> m) = match res m with inl e => inl e | inr a => inr (g a) end.
Proof.
  unfold fmap, M_fmap, bind, res. destruct m as [t [e | a]]; reflexivity.
Qed.

Lemma bind_ext {A B} (m : M A) (f g : A -> M B) :
  (forall a, f a = g a) -> m ≫= f = m ≫= g.
Proof.
  intros H. unfold mbind, M_bind, bind.
  destruct m as [t [e | a]]; simpl; [reflexivity | now rewrite H].
Qed.

Lemma bind_raise {A B} (e : exn) (f : A -> M B) : raise e ≫= f = raise e.
Proof. reflexivity. Qed.

Lemma bind_ret_l {A B} (a : A) (f : A -> M B) : ret a ≫= f = f a.
Proof.
  unfold mbind, M_bind, bind, ret. simpl. now destruct (f a).
Qed.

Lemma bind_ret_r {A} (m : M A) : m ≫= ret = m.
Proof.
  unfold mbind, M_bind, bind, ret. destruct m as [t [e | a]]; simpl;
    [reflexivity | now rewrite app_nil_r].
Qed.

Lemma bind_assoc {A B C} (m : M A) (f : A -> M B) (g : B -> M C) :
  (m ≫= f) ≫= g = m ≫= (fun a => f a ≫= g).
Proof.
  unfold mbind, M_bind, bind. destruct m as [t [e | a]]; simpl; [reflexivity |].
  destruct (f a) as [t' [e' | b]]; simpl; [reflexivity |].
  now rewrite app_assoc.
Qed.

(** One step of a proof about results: the result of the next computation
    is looked up among the hypotheses or analysed by cases. *)
Ltac res_step :=
  rewrite ?res_bind;
  first
    [ match goal with
      | E : res ?m = _ |- context [res ?m] => rewrite E
      end
    | match goal with
      | |- context [match res ?m with _ => _ end] =>
          lazymatch m with
          | mbind _ _ => fail
          | _ => let E := fresh "E" in
                 destruct (res m) as [? | ?] eqn:E
          end
      end ];
  cbn beta iota delta [negb]; rewrite ?res_ret; try reflexivity.

(** *** Minimum sample counts *)


(** *** Configuration errors of the exponentially weighted operations *)

(** C6 (as amended): for a pair [com], [span] that names both or neither,
    [ewma], [ewmvar], [ewmstd] and [ewmvol] raise the configuration error
    with nothing computed; [ewmcov] and [ewmcorr] first align the operands,
    conform them and form the product [X*Y], and raise it then (an exception
    of those steps comes first). *)
Theorem ewm_config_error (com span : option float) (e : exn) :
  config_error com span = Some e ->
  (forall arg mp tr, ewma arg com span mp tr = raise e)
  /\ (forall arg mp bias tr, ewmvar arg com span mp bias tr = raise e)
  /\ (forall arg mp bias tr, ewmstd arg com span mp bias tr = raise e)
  /\ (forall arg mp bias tr, ewmvol arg com span mp bias tr = raise e)
  /\ (forall arg1 arg2 mp bias tr,
        ewmcov arg1 arg2 com span mp bias tr
        = ('(X, Y) ← _prep_binary arg1 arg2;
           X ← _conv_timerule X tr;
           Y ← _conv_timerule Y tr;
           _ ← binop EvMul mul X Y;
           raise e))
  /\ (forall arg1 arg2 mp tr,
        ewmcorr arg1 arg2 com span mp tr
        = ('(X, Y) ← _prep_binary arg1 arg2;
           X ← _conv_timerule X tr;
           Y ← _conv_timerule Y tr;
           _ ← binop EvMul mul X Y;
           raise e)).
Proof.
  intros He.
  assert (Hc : forall A, _get_center_of_mass com span = raise e
                         /\ (@raise A e = ([], inl e))).
  { intros A. destruct com, span; inversion He; split; reflexivity. }
  assert (Hm : forall arg mp tr, ewma arg com span mp tr = raise e).
  { intros. unfold ewma. destruct (Hc unit) as [-> _]. reflexivity. }
  assert (Hv : forall arg mp bias tr, ewmvar arg com span mp bias tr = raise e).
  { intros. unfold ewmvar. destruct (Hc unit) as [-> _]. reflexivity. }
  repeat split; auto.
  - intros. unfold ewmstd. rewrite Hv. reflexivity.
  - intros. unfold ewmvol, ewmstd. rewrite Hv. reflexivity.
  - intros. unfold ewmcov.
    apply bind_ext; intros [X Y]. apply bind_ext; intros X'.
    apply bind_ext; intros Y'. apply bind_ext; intros xy.
    rewrite (Hm xy). reflexivity.
  - intros. unfold ewmcorr.
    apply bind_ext; intros [X Y]. apply bind_ext; intros X'.
    apply bind_ext; intros Y'. apply bind_ext; intros xy.
    rewrite (Hm xy). reflexivity.
Qed.

(** *** The exponentially weighted variance and correlation *)

(** C2 (as amended): with [bias] false [ewmvar] is [ewma(x²) − ewma(x)²]
    times the correction factor [(1+2·com)/(2·com)] whenever [2·com] is not
    zero; when it is zero the two moments and their difference are computed
    and the scalar division then raises [ZeroDivisionError]: no infinity or
    NaN flows into an output. *)
Theorem ewmvar_bias_correction (arg : data) (com span : option float)
    (mp : Z) (tr : option string) (c : float) :
  _get_center_of_mass com span = ret c ->
  (is_zero (mul two c) = false ->
     ewmvar arg com span mp false tr
     = (arg ← _conv_timerule arg tr; ewmvar_spec arg c mp false))
  /\ (is_zero (mul two c) = true ->
        ewmvar arg com span mp false tr
        = (arg ← _conv_timerule arg tr;
           _ ← ewmvar_spec arg c mp true;
           raise ZeroDivisionError)).
Proof.
  intros Hc. unfold ewmvar, ewmvar_spec. rewrite Hc, bind_ret_l.
  split; intros Hz; apply bind_ext; intros arg'; rewrite ?bind_assoc;
    apply bind_ext; intros sq; rewrite ?bind_assoc;
    apply bind_ext; intros m2; rewrite ?bind_assoc;
    apply bind_ext; intros m1; rewrite ?bind_assoc;
    apply bind_ext; intros m1sq; rewrite ?bind_assoc;
    apply bind_ext; intros r; cbn [negb];
    unfold bias_factor, py_div; rewrite Hz.
  - now rewrite bind_ret_l.
  - now rewrite bind_ret_l.
Qed.

(** C7 (as amended): [ewmcorr(x,y)] returns what the quotient of
    [ewmcov(x,y,bias=True)] by [sqrt(ewmvar(X,bias=True)·ewmvar(Y,bias=True))]
    returns, [X] and [Y] being the operands after alignment and conforming. *)
Theorem ewmcorr_is_biased_quotient (arg1 arg2 : data) (com span : option float)
    (mp : Z) (tr : option string) :
  res (ewmcorr arg1 arg2 com span mp tr)
  = res (ewmcorr_aligned arg1 arg2 com span mp tr).
Proof.
  unfold ewmcorr, ewmcorr_aligned, ewmcov.
  res_step. destruct p as [X Y].
  repeat res_step.
Qed.

(** *** The alias of the standard deviation *)

(** C10: [ewmvol] is [ewmstd]: the two return the same on every input and
    every choice of [com], [span], [min_periods], [bias] and [time_rule]. *)
Theorem ewmvol_is_ewmstd (arg : data) (com span : option float) (mp : Z)
    (bias : bool) (tr : option string) :
  ewmvol arg com span mp bias tr = ewmstd arg com span mp bias tr.
Proof. reflexivity. Qed.

(** *** Shapes of the results of single-argument operations *)

Lemma res_tick_bind {A} (ev : event) (k : unit -> M A) :
  res (tick ev ≫= k) = res (k tt).
Proof. now rewrite res_bind. Qed.

Lemma res_mapM {A B} (f : A -> M B) (g : A -> B) (P : A -> Prop) (l : list A) :
  Forall P l -> (forall x, P x -> res (f x) = inr (g x)) ->
  res (mapM_M f l) = inr (map g l).
Proof.
  intros Hl Hf. induction Hl as [| x l Hx Hl IH]; [reflexivity |].
  cbn [mapM_M map]. rewrite res_bind, (Hf x Hx), res_bind, IH. reflexivity.
Qed.

Lemma forallb_length_map (g : list float -> list float) (n m : nat)
    (l : list (list float)) :
  Forall (fun c => length c = n) l ->
  (forall x, length x = n -> length (g x) = m) ->
  forallb (fun r => Nat.eqb (length r) m) (map g l) = true.
Proof.
  intros Hl Hg. induction Hl as [| x l Hx Hl IH]; [reflexivity |].
  cbn [map forallb]. rewrite (Hg x Hx), Nat.eqb_refl. exact IH.
Qed.

(** [np.apply_along_axis] with a function that succeeds on columns of [n]
    entries and keeps their length. *)
Lemma apply_along_axis_res (f : list float -> M (list float))
    (g : list float -> list float) (n : nat) (values : ndarray) :
  (forall x, length x = n -> res (f x) = inr (g x) /\ length (g x) = n) ->
  match values with
  | Arr1 v => length v = n
  | Arr2 cols => cols <> [] /\ Forall (fun c => length c = n) cols
  end ->
  res (Np.apply_along_axis f values) = inr (Np.map_cols g values).
Proof.
  intros Hf Hv. destruct values as [v | [| c cols]]; cbn [Np.apply_along_axis].
  - rewrite res_fmap. now destruct (Hf v Hv) as [-> _].
  - now destruct Hv.
  - destruct Hv as [_ Hv]. apply Forall_cons in Hv as [Hc Hcols].
    destruct (Hf c Hc) as [Ec Lc].
    rewrite res_bind, Ec, res_bind.
    rewrite (res_mapM f g (fun x => length x = n) cols Hcols
               (fun x Hx => proj1 (Hf x Hx))).
    rewrite (forallb_length_map g n (length (g c)) cols Hcols).
    + reflexivity.
    + intros x Hx. destruct (Hf x Hx) as [_ ->]. now rewrite Lc.
Qed.

Lemma Forall_length_map_map (h : float -> float) (n : nat) (l : list (list float)) :
  Forall (fun c => length c = n) l ->
  Forall (fun c => length c = n) (map (map h) l).
Proof.
  intros H. apply Forall_map. eapply Forall_impl; [exact H |].
  intros c Hc. cbn. now rewrite length_map.
Qed.

Lemma res_tick (ev : event) : res (tick ev) = inr tt.
Proof. reflexivity. Qed.

Ltac proc_step :=
  cbn beta iota zeta; rewrite ?res_bind, ?res_tick; cbn beta iota;
  rewrite ?res_ret; cbn beta iota.

(** The common tail of the single-argument operations: the values are taken
    out of the container, [f] runs along the first axis, the result is put
    back under the labels of the input. *)
Lemma process_apply_hook (arg : data) (kill : bool)
    (f : list float -> M (list float)) (g : list float -> list float) :
  wf arg ->
  (forall x, length x = len arg ->
             res (f x) = inr (g x) /\ length (g x) = len arg) ->
  res ('(return_hook, values) ← _process_data_structure arg kill;
       result ← Np.apply_along_axis f values;
       return_hook result)
  = inr (map_columns
           (fun c => g (if kill then map Np.inf_to_nan c else c)) arg).
Proof.
  intros Hwf Hf.
  assert (Hhook : forall (values : ndarray) (return_hook : ndarray -> M data) out,
             match values with
             | Arr1 v => length v = len arg
             | Arr2 cols => cols <> [] /\ Forall (fun c => length c = len arg) cols
             end ->
             res (return_hook (Np.map_cols g values)) = inr out ->
             res (result ← Np.apply_along_axis f values; return_hook result)
             = inr out).
  { intros values hook out Hv Hh.
    now rewrite res_bind, (apply_along_axis_res f g (len arg) values Hf Hv). }
  unfold _process_data_structure.
  destruct arg as [[v | cols] | i v | i c vals]; cbn [wf len Np.len] in *.
  - destruct kill; proc_step;
      apply Hhook; cbn [Np.map_nd Np.map_cols map_columns];
      rewrite ?length_map; reflexivity.
  - destruct Hwf as [Hne Hall].
    destruct kill; proc_step; apply Hhook; cbn [Np.map_nd Np.map_cols map_columns].
    + split; [now destruct cols |].
      destruct cols as [| c0 cols]; [easy |]. cbn [map Np.len] in *.
      now apply (Forall_length_map_map Np.inf_to_nan (length c0) (c0 :: cols)).
    + now rewrite map_map.
    + now split.
    + reflexivity.
  - destruct kill; proc_step; apply Hhook; cbn [Np.map_nd Np.map_cols map_columns mk_series];
      rewrite ?length_map; try reflexivity.
    + destruct (Hf (map Np.inf_to_nan v)) as [_ Hl]; [now rewrite length_map |].
      rewrite Hl, Hwf. now destruct (decide (length i = length i)).
    + destruct (Hf v eq_refl) as [_ Hl].
      rewrite Hl, Hwf. now destruct (decide (length i = length i)).
  - destruct Hwf as (Hne & Hlen & Hall).
    assert (Hmk : forall h : list float -> list float,
               (forall c, length c = length i -> length (h c) = length i) ->
               res (mk_frame i c (Arr2 (map h vals)))
               = inr (DataFrame i c (map h vals))).
    { intros h Hh. cbn [mk_frame]. rewrite length_map, Hlen.
      rewrite bool_decide_eq_true_2 by reflexivity.
      rewrite (forallb_length_map h (length i) (length i) vals Hall Hh).
      reflexivity. }
    destruct kill; proc_step; apply Hhook; cbn [Np.map_nd Np.map_cols map_columns].
    + split; [now destruct vals |].
      now apply Forall_length_map_map.
    + rewrite map_map. apply (Hmk (fun c => g (map Np.inf_to_nan c))).
      intros c0 Hc0. apply Hf. now rewrite length_map.
    + now split.
    + apply (Hmk g). intros c0 Hc0. now apply Hf.
Qed.

Lemma conv_timerule_ndarray (a : ndarray) (tr : option string) :
  _conv_timerule (NDArray a) tr = ret (NDArray a).
Proof. now destruct tr. Qed.

Lemma rolling_moment_res (arg arg' : data) (W : Z)
    (func : list float -> Z -> option Z -> M (list float)) (minp : option Z)
    (tr : option string) (g : list float -> list float) :
  res (_conv_timerule arg tr) = inr arg' ->
  wf arg' ->
  (forall x, length x = len arg' ->
             res (func x W minp) = inr (g x) /\ length (g x) = len arg') ->
  res (_rolling_moment arg W func minp tr)
  = inr (map_columns (fun c => g (map Np.inf_to_nan c)) arg').
Proof.
  intros Hc Hwf Hf. unfold _rolling_moment. rewrite res_bind, Hc.
  cbn beta iota. now apply (process_apply_hook arg' true).
Qed.

Lemma rolling_func_res (k : kernel) (check_minp : option Z -> Z -> Z)
    (arg arg' : data) (W : Z) (mp : option Z) (tr : option string) :
  length_preserving k ->
  res (_conv_timerule arg tr) = inr arg' ->
  wf arg' ->
  res (_rolling_func k check_minp arg W mp tr)
  = inr (map_columns
           (fun c => k (map Np.inf_to_nan c) W (check_minp mp W)) arg').
Proof.
  intros Hk Hc Hwf. unfold _rolling_func.
  apply (rolling_moment_res arg arg' W _ mp tr
           (fun x => k x W (check_minp mp W)) Hc Hwf).
  intros x Hx. rewrite res_bind, res_tick. cbn beta iota.
  now rewrite res_ret, Hk.
Qed.

Lemma map_length_preserved (g : list float -> list float) (n : nat)
    (l : list (list float)) :
  Forall (fun c => length c = n) l ->
  (forall c, length c = n -> length (g c) = n) ->
  map (@length float) l = map (@length float) (map g l).
Proof.
  intros Hl Hg. induction Hl as [| c l Hc Hl IH]; [reflexivity |].
  cbn [map]. now rewrite IH, (Hg c Hc), Hc.
Qed.

Lemma same_shape_map_columns (g : list float -> list float) (d : data) :
  wf d ->
  (forall c, length c = len d -> length (g c) = len d) ->
  same_shape d (map_columns g d).
Proof.
  intros Hwf Hg.
  destruct d as [[v | cols] | i v | i c vals];
    cbn [wf len Np.len same_shape map_columns Np.map_cols] in *.
  - symmetry. now apply Hg.
  - destruct Hwf as [_ Hall]. now apply (map_length_preserved g _ cols Hall).
  - split; [reflexivity |]. symmetry. now apply Hg.
  - destruct Hwf as (_ & _ & Hall). repeat split.
    apply (map_length_preserved g (length i) vals Hall).
    intros c0 Hc0. now apply Hg.
Qed.

Lemma same_shape_refl (d : data) : same_shape d d.
Proof. destruct d as [[v | cols] | i v | i c vals]; cbn; auto. Qed.

Lemma same_shape_trans (a b c : data) :
  same_shape a b -> same_shape b c -> same_shape a c.
Proof.
  destruct a as [[? | ?] | ? ? | ? ? ?], b as [[? | ?] | ? ? | ? ? ?],
           c as [[? | ?] | ? ? | ? ? ?]; cbn; try tauto;
    intros; intuition (subst; congruence).
Qed.

Lemma same_shape_sym (a b : data) : same_shape a b -> same_shape b a.
Proof.
  destruct a as [[? | ?] | ? ? | ? ? ?], b as [[? | ?] | ? ? | ? ? ?];
    cbn; try tauto; intros; intuition (subst; congruence).
Qed.


Lemma Forall_length_transfer (n : nat) (x y : list (list float)) :
  map (@length float) x = map (@length float) y ->
  Forall (fun c => length c = n) x -> Forall (fun c => length c = n) y.
Proof.
  revert y. induction x as [| a x IH]; intros [| b y] Hm Hx;
    cbn in Hm; try discriminate; [constructor |].
  injection Hm as Hab Hm. apply Forall_cons in Hx as [Ha Hx].
  constructor; [congruence | now apply IH].
Qed.

Lemma wf_same_shape (a b : data) : wf a -> same_shape a b -> wf b.
Proof.
  destruct a as [[? | x] | ? ? | ? ? x], b as [[? | y] | ? ? | ? ? y];
    cbn [wf same_shape len Np.len]; try tauto.
  - intros [Hne Hall] Hm. split.
    + destruct x, y; cbn in Hm; congruence.
    + destruct x as [| c x], y as [| c' y]; cbn in Hm; try congruence.
      injection Hm as Hc Hm'. rewrite <- Hc.
      apply (Forall_length_transfer (length c) (c :: x) (c' :: y)); [| exact Hall].
      cbn. congruence.
  - intros H [-> Hl]. congruence.
  - intros (Hne & Hlen & Hall) (-> & -> & Hm). repeat split.
    + destruct x, y; cbn in Hm; congruence.
    + rewrite <- Hlen. apply (f_equal length) in Hm.
      rewrite !length_map in Hm. congruence.
    + now apply (Forall_length_transfer _ x y).
Qed.

(** *** The modelled reducers keep the length of their input *)

Lemma roll_reduce_length (stat : list float -> float) :
  length_preserving (roll_reduce stat).
Proof. intros x w p. unfold roll_reduce. apply length_imap. Qed.

Lemma roll_sum_length (x : list float) (w p : Z) :
  length (roll_sum x w p) = length x.
Proof. apply roll_reduce_length. Qed.

Lemma ewma_from_length (alpha : float) (prev : option float) (x : list float) :
  length (ewma_from alpha prev x) = length x.
Proof.
  revert prev. induction x as [| c x IH]; intros prev; [reflexivity |].
  cbn [ewma_from length]. now rewrite IH.
Qed.

Lemma set_slice_length (v : list float) (a b : Z) (x : float) :
  length (Np.set_slice v a b x) = length v.
Proof. unfold Np.set_slice. apply length_imap. Qed.

(** *** The rolling count *)

Lemma rolling_count_res (arg arg' : data) (W : Z) (tr : option string) :
  res (_conv_timerule arg tr) = inr arg' ->
  wf arg' ->
  res (rolling_count arg W tr)
  = inr (map_columns (count_column (Z.min W (Z.of_nat (len arg')))) arg').
Proof.
  intros Hc Hwf. unfold rolling_count. rewrite res_bind, Hc. cbn beta iota.
  set (W' := Z.min W (Z.of_nat (len arg'))).
  assert (Hsum : forall a : ndarray,
             wf (NDArray a) ->
             res (rolling_sum (NDArray a) W' (Some 1) tr)
             = inr (NDArray (Np.map_cols
                     (fun c => roll_sum (map Np.inf_to_nan c) W' 1) a))).
  { intros a Ha. unfold rolling_sum.
    rewrite (rolling_func_res roll_sum _use_window (NDArray a) (NDArray a)
               W' (Some 1) tr (roll_reduce_length _)); [reflexivity | | exact Ha].
    now rewrite conv_timerule_ndarray. }
  unfold _process_data_structure.
  assert (Hrect : forall (n : nat) (cols : list (list float)) (h : float -> float),
             cols <> [] -> Forall (fun c => length c = n) cols ->
             wf (NDArray (Arr2 (map (map h) cols)))).
  { intros n cols h Hne Hall. cbn [wf len Np.len]. split; [now destruct cols |].
    destruct cols as [| c0 cols]; [easy |]. cbn [map].
    apply Forall_cons in Hall as [H0 Hall]. rewrite length_map, H0.
    apply (Forall_length_map_map h n (c0 :: cols)). now constructor. }
  unfold _process_data_structure.
  destruct arg' as [[v | cols] | i v | i c vals]; repeat proc_step.
  - rewrite Hsum by exact I. repeat proc_step. reflexivity.
  - destruct Hwf as [Hne Hall].
    rewrite Hsum by (now apply (Hrect _ cols _ Hne Hall)).
    repeat proc_step. cbn [Np.map_nd Np.map_cols map_columns as_ndarray].
    repeat proc_step. cbn [Np.map_nd]. now rewrite !map_map.
  - rewrite Hsum by exact I. repeat proc_step.
    cbn [Np.map_nd Np.map_cols mk_series map_columns as_ndarray].
    repeat proc_step. cbn [Np.map_nd mk_series].
    cbn [wf] in Hwf.
    rewrite !length_map, roll_sum_length, !length_map, Hwf.
    destruct (decide (length i = length i)); [reflexivity | congruence].
  - destruct Hwf as (Hne & Hlen & Hall).
    rewrite Hsum by (now apply (Hrect _ vals _ Hne Hall)).
    repeat proc_step. cbn [Np.map_nd Np.map_cols map_columns as_ndarray].
    repeat proc_step. cbn [Np.map_nd mk_frame].
    rewrite !length_map, Hlen, bool_decide_eq_true_2 by reflexivity.
    rewrite !map_map.
    rewrite (forallb_length_map _ (length i) (length i) vals Hall).
    + reflexivity.
    + intros x Hx. now rewrite !length_map, roll_sum_length, !length_map.
Qed.

Lemma columns_data_map_columns (g : list float -> list float) (d : data) :
  columns_data (map_columns g d) = map g (columns_data d).
Proof. now destruct d as [[v | cols] | i v | i c vals]. Qed.

Lemma nan_to_zero_not_nan (x : float) : isnan (Np.nan_to_zero x) = false.
Proof. unfold Np.nan_to_zero. now destruct x. Qed.

Lemma count_column_no_nan (W : Z) (c : list float) (x : float) :
  x ∈ count_column W c -> isnan x = false.
Proof.
  unfold count_column. rewrite list_elem_of_In, in_map_iff.
  intros (y & <- & _). apply nan_to_zero_not_nan.
Qed.

Lemma window_map (h : float -> float) (x : list float) (W : Z) (i : nat) :
  window (map h x) W i = map h (window x W i).
Proof. unfold window. now rewrite skipn_map, firstn_map. Qed.

Lemma foldl_add_zeros (l : list float) :
  Forall (fun y => y = zero) l -> foldl add zero l = zero.
Proof.
  induction 1 as [| y l -> _ IH]; [reflexivity |].
  cbn [foldl]. exact IH.
Qed.

(** A position whose window holds no finite observation counts zero. *)
Lemma count_column_zero (W : Z) (c : list float) (i : nat) (x : float) :
  count_column W c !! i = Some x ->
  Forall (fun y => isfinite y = false) (window c W i) ->
  x = zero.
Proof.
  unfold count_column, roll_sum, roll_reduce. intros Hx Hall.
  change (map Np.nan_to_zero ?l) with (Np.nan_to_zero <$> l) in Hx.
  rewrite list_lookup_fmap, list_lookup_imap in Hx.
  destruct (_ !! i) as [y |] eqn:Ey; [| discriminate].
  cbn in Hx. injection Hx as <-.
  rewrite map_map, window_map.
  assert (Hz : Forall (fun y => y = zero)
                 (map (fun x => Np.inf_to_nan (of_bool (isfinite x)))
                      (window c W i))).
  { apply Forall_map. eapply Forall_impl; [exact Hall |].
    intros z Hz. cbn. now rewrite Hz. }
  assert (Hv : valid (map (fun x => Np.inf_to_nan (of_bool (isfinite x)))
                          (window c W i))
               = map (fun x => Np.inf_to_nan (of_bool (isfinite x)))
                     (window c W i)).
  { unfold valid. induction Hz as [| z l -> _ IH]; [reflexivity |].
    rewrite filter_cons_True by reflexivity. now rewrite IH. }
  rewrite Hv, (foldl_add_zeros _ Hz).
  now destruct (1 <=? _).
Qed.

(** *** Computations that keep the shape of their input *)

Lemma returns_like_bind (a a' : data) (m : M data) (k : data -> M data) :
  returns_like a m ->
  (forall r, same_shape a r -> returns_like a' (k r)) ->
  returns_like a' (m ≫= k).
Proof.
  intros (r & Hr & Hs) Hk. destruct (Hk r Hs) as (r' & Hr' & Hs').
  exists r'. split; [| exact Hs']. now rewrite res_bind, Hr.
Qed.


Lemma returns_like_shape (a b : data) (m : M data) :
  same_shape a b -> returns_like b m -> returns_like a m.
Proof.
  intros Hab (r & Hr & Hs). exists r. split; [exact Hr |].
  now apply (same_shape_trans a b r).
Qed.

Lemma same_shape_map_values (f : float -> float) (d : data) :
  same_shape d (map_values f d).
Proof.
  destruct d as [[v | cols] | i v | i c vals];
    cbn [same_shape map_values Np.map_nd]; rewrite ?length_map; auto.
  - rewrite map_map. apply map_ext. intros x. now rewrite length_map.
  - repeat split. rewrite map_map. apply map_ext. intros x.
    now rewrite length_map.
Qed.

Lemma scalar_op_like (a x : data) (ev : event) (f : float -> float) :
  same_shape a x -> returns_like a (scalar_op ev f x).
Proof.
  intros Hs. exists (map_values f x). split.
  - unfold scalar_op. now rewrite res_bind, res_tick.
  - apply (same_shape_trans a x _ Hs), same_shape_map_values.
Qed.

Lemma zip_with_lengths (f : float -> float -> float) (x y : list (list float)) :
  map (@length float) x = map (@length float) y ->
  map (@length float) (zip_with (zip_with f) x y) = map (@length float) x.
Proof.
  revert y. induction x as [| a x IH]; intros [| b y] Hm;
    cbn in Hm; try discriminate; [reflexivity |].
  injection Hm as Hab Hm. cbn [zip_with map].
  rewrite (IH y Hm). f_equal. rewrite length_zip_with. lia.
Qed.

Lemma forallb_length (n : nat) (l : list (list float)) :
  Forall (fun c => length c = n) l ->
  forallb (fun r => Nat.eqb (length r) n) l = true.
Proof.
  induction 1 as [| x l Hx Hl IH]; [reflexivity |].
  cbn [forallb]. now rewrite Hx, Nat.eqb_refl.
Qed.

Lemma binop_same_shape (ev : event) (f : float -> float -> float) (x y : data) :
  wf x -> same_shape x y ->
  exists r, res (binop ev f x y) = inr r /\ same_shape x r.
Proof.
  intros Hwf Hs. unfold binop. rewrite res_bind, res_tick. cbn beta iota.
  destruct x as [[v | cx] | i v | i c vx], y as [[w | cy] | j w | j d vy];
    cbn [same_shape] in Hs; try contradiction.
  - exists (NDArray (Arr1 (zip_with f v w))). split.
    + rewrite res_fmap. cbn [Np.broadcast]. rewrite res_fmap.
      unfold Np.broadcast1. destruct (decide (length v = length w)); [| easy].
      reflexivity.
    + cbn. rewrite length_zip_with. lia.
  - exists (NDArray (Arr2 (zip_with (zip_with f) cx cy))). split.
    + rewrite res_fmap. cbn [Np.broadcast]. unfold Np.same_shape2.
      rewrite bool_decide_eq_true_2 by exact Hs. reflexivity.
    + cbn. symmetry. now apply zip_with_lengths.
  - destruct Hs as [<- Hl]. cbn [wf] in Hwf.
    exists (Series i (zip_with f v w)). split.
    + destruct (decide (i = i)); [| congruence].
      rewrite res_bind. unfold Np.broadcast1.
      destruct (decide (length v = length w)); [| easy].
      rewrite res_ret. cbn [mk_series].
      destruct (decide (length (zip_with f v w) = length i)) as [| Hn];
        [reflexivity |].
      exfalso. apply Hn. rewrite length_zip_with. lia.
    + cbn. split; [reflexivity |]. rewrite length_zip_with. lia.
  - destruct Hs as (<- & <- & Hm). destruct Hwf as (Hne & Hlen & Hall).
    exists (DataFrame i c (zip_with (zip_with f) vx vy)). split.
    + rewrite !bool_decide_eq_true_2 by reflexivity. cbn [andb].
      rewrite res_bind. cbn [Np.broadcast]. unfold Np.same_shape2.
      rewrite bool_decide_eq_true_2 by exact Hm. rewrite res_ret.
      cbn [mk_frame].
      assert (Hz := zip_with_lengths f vx vy Hm).
      assert (Hlz : length (zip_with (zip_with f) vx vy) = length c).
      { apply (f_equal length) in Hz. rewrite !length_map in Hz. congruence. }
      rewrite bool_decide_eq_true_2 by exact Hlz. cbn [andb].
      assert (Hf : Forall (fun c0 => length c0 = length i)
                     (zip_with (zip_with f) vx vy)).
      { apply (Forall_length_transfer _ vx); [now symmetry | exact Hall]. }
      now rewrite (forallb_length (length i) _ Hf).
    + cbn. repeat split. symmetry. now apply zip_with_lengths.
Qed.

Lemma binop_like (a x y : data) (ev : event) (f : float -> float -> float) :
  wf a -> same_shape a x -> same_shape a y ->
  returns_like a (binop ev f x y).
Proof.
  intros Hwf Hx Hy.
  destruct (binop_same_shape ev f x y) as (r & Hr & Hs).
  - now apply (wf_same_shape a).
  - apply (same_shape_trans x a y); [now apply same_shape_sym | exact Hy].
  - exists r. split; [exact Hr |]. now apply (same_shape_trans a x r).
Qed.

(** *** The exponentially weighted mean, column by column *)

Lemma ewma_column_length (com : float) (mp : Z) (c : list float) :
  length (ewma_column com mp c) = length c.
Proof.
  unfold ewma_column, Tseries.ewma. cbn zeta.
  now rewrite set_slice_length, ewma_from_length, length_map.
Qed.

Lemma ewma_res (arg arg' : data) (com span : option float) (mp : Z)
    (tr : option string) (c : float) :
  _get_center_of_mass com span = ret c ->
  res (_conv_timerule arg tr) = inr arg' ->
  wf arg' -> (0 < len arg')%nat ->
  res (ewma arg com span mp tr) = inr (map_columns (ewma_column c mp) arg').
Proof.
  intros Hc Hconv Hwf Hpos. unfold ewma.
  rewrite res_bind, Hc, res_ret. cbn beta iota.
  rewrite res_bind, Hconv. cbn beta iota.
  apply (process_apply_hook arg' true _
           (fun v => Np.set_slice (Tseries.ewma v c) (Z.of_nat (first_valid v))
                       (Z.of_nat (first_valid v) + mp) nan) Hwf).
  intros x Hx. split.
  - rewrite res_bind, res_tick. cbn beta iota.
    rewrite res_bind. unfold _first_valid_index, Np.argmax.
    destruct x as [| x0 x]; [cbn in Hx; lia |]. reflexivity.
  - unfold Tseries.ewma. now rewrite set_slice_length, ewma_from_length.
Qed.

Lemma conv_timerule_none (arg : data) : _conv_timerule arg None = ret arg.
Proof. reflexivity. Qed.


Lemma rolling_func_like (a x : data) (k : kernel)
    (check_minp : option Z -> Z -> Z) (W : Z) (mp : option Z) :
  length_preserving k -> wf a -> same_shape a x ->
  returns_like a (_rolling_func k check_minp x W mp None).
Proof.
  intros Hk Hwf Hs. assert (Hwx := wf_same_shape a x Hwf Hs).
  eexists. split.
  - now apply (rolling_func_res k check_minp x x W mp None Hk).
  - apply (same_shape_trans a x _ Hs), same_shape_map_columns; [exact Hwx |].
    intros col Hcol. now rewrite Hk, length_map.
Qed.

Lemma count_column_length (W : Z) (c : list float) :
  length (count_column W c) = length c.
Proof.
  unfold count_column. now rewrite length_map, roll_sum_length, !length_map.
Qed.

Lemma rolling_count_like (a x : data) (W : Z) :
  wf a -> same_shape a x -> returns_like a (rolling_count x W None).
Proof.
  intros Hwf Hs. assert (Hwx := wf_same_shape a x Hwf Hs).
  eexists. split.
  - now apply (rolling_count_res x x W None).
  - apply (same_shape_trans a x _ Hs), same_shape_map_columns; [exact Hwx |].
    intros col Hcol. now rewrite count_column_length.
Qed.



(** *** The rolling count is never missing *)

(** C5: on every well-formed input and for every window size
    [rolling_count] returns a result shaped like the (conformed) input, none
    of whose entries is missing; the entry at a position whose window holds
    no finite observation is 0; and the count is the windowed sum with
    minimum sample count 1, whatever the caller passes. *)
Theorem rolling_count_never_missing (arg arg' : data) (W : Z)
    (tr : option string) :
  res (_conv_timerule arg tr) = inr arg' ->
  wf arg' ->
  exists out : data,
    res (rolling_count arg W tr) = inr out
    /\ out = map_columns (count_column (Z.min W (Z.of_nat (len arg')))) arg'
    /\ same_shape arg' out
    /\ (forall (c : list float) (x : float),
          c ∈ columns_data out -> x ∈ c -> isnan x = false)
    /\ (forall (k i : nat) (c o : list float) (x : float),
          columns_data arg' !! k = Some c ->
          columns_data out !! k = Some o ->
          o !! i = Some x ->
          Forall (fun y => isfinite y = false)
                 (window c (Z.min W (Z.of_nat (len arg'))) i) ->
          x = zero).
Proof.
  intros Hc Hwf.
  exists (map_columns (count_column (Z.min W (Z.of_nat (len arg')))) arg').
  split; [now apply rolling_count_res |]. split; [reflexivity |].
  split; [| split].
  - apply same_shape_map_columns; [exact Hwf |].
    intros c Hcl. now rewrite count_column_length.
  - intros c x Hcol Hx. rewrite columns_data_map_columns in Hcol.
    apply list_elem_of_In, in_map_iff in Hcol as (c0 & <- & _).
    exact (count_column_no_nan _ c0 x Hx).
  - intros k i c o x Hk Ho Hx Hall.
    rewrite columns_data_map_columns in Ho.
    change (map ?g ?l) with (g <$> l) in Ho.
    rewrite list_lookup_fmap, Hk in Ho. injection Ho as <-.
    exact (count_column_zero _ c i x Hx Hall).
Qed.

(** *** Single-argument operations keep the shape of their input *)

Lemma ts_std_length : length_preserving roll_var -> length_preserving _ts_std.
Proof. intros H x w p. unfold _ts_std. now rewrite length_map. Qed.

Lemma rolling_quantile_like (a x : data) (W : Z) (q : float) (mp : option Z) :
  length_preserving (fun x w p => roll_quantile x w p q) ->
  wf a -> same_shape a x ->
  returns_like a (rolling_quantile x W q mp None).
Proof.
  intros Hk. exact (rolling_func_like a x _ _use_window W mp Hk).
Qed.

Lemma rolling_apply_like (a x : data) (W : Z) (f : list float -> float)
    (mp : option Z) :
  length_preserving (fun x w p => roll_generic x w p f) ->
  wf a -> same_shape a x ->
  returns_like a (rolling_apply x W f mp None).
Proof.
  intros Hk. exact (rolling_func_like a x _ _use_window W mp Hk).
Qed.



(** *** Paired rolling moments of two operands of one shape *)

Lemma same_shape_isinstance (x y : data) :
  same_shape x y -> isinstance_of y x = true.
Proof.
  destruct x as [[? | ?] | ? ? | ? ? ?], y as [[? | ?] | ? ? | ? ? ?];
    cbn; tauto.
Qed.

Lemma same_shape_is_ndarray (x y : data) :
  same_shape x y -> is_ndarray y = is_ndarray x.
Proof.
  destruct x as [[? | ?] | ? ? | ? ? ?], y as [[? | ?] | ? ? | ? ? ?];
    cbn; tauto.
Qed.

Lemma prep_binary_like (a x y : data) :
  wf a -> same_shape a x -> same_shape a y ->
  exists X Y, res (_prep_binary x y) = inr (X, Y)
              /\ same_shape a X /\ same_shape a Y.
Proof.
  intros Hwf Hx Hy. unfold _prep_binary.
  rewrite (same_shape_isinstance x y)
    by (apply (same_shape_trans x a y); [now apply same_shape_sym | exact Hy]).
  cbn [negb].
  destruct (scalar_op_like a y EvMul (mul zero) Hy) as (z2 & Ez2 & Hz2).
  destruct (binop_like a x z2 EvAdd add Hwf Hx Hz2) as (X & EX & HX).
  destruct (scalar_op_like a x EvMul (mul zero) Hx) as (z1 & Ez1 & Hz1).
  destruct (binop_like a y z1 EvAdd add Hwf Hy Hz1) as (Y & EY & HY).
  exists X, Y. split; [| now split].
  rewrite res_bind, Ez2. cbn beta iota. rewrite res_bind, EX. cbn beta iota.
  rewrite res_bind, Ez1. cbn beta iota. rewrite res_bind, EY. reflexivity.
Qed.

Lemma flex_binary_moment_like (a x y : data) (f : data -> data -> M data) :
  is_ndarray a = true -> wf a -> same_shape a x -> same_shape a y ->
  (forall X Y, same_shape a X -> same_shape a Y -> returns_like a (f X Y)) ->
  returns_like a (_flex_binary_moment x y f).
Proof.
  intros Hnd Hwf Hx Hy Hf. unfold _flex_binary_moment.
  rewrite (same_shape_is_ndarray a x Hx), (same_shape_is_ndarray a y Hy), Hnd.
  cbn [andb].
  destruct (prep_binary_like a x y Hwf Hx Hy) as (X & Y & E & HX & HY).
  destruct (Hf X Y HX HY) as (r & Er & Hr).
  exists r. split; [| exact Hr]. now rewrite res_bind, E.
Qed.

Lemma rolling_cov_like (a x y : data) (W : Z) (mp : option Z) :
  length_preserving roll_mean ->
  is_ndarray a = true -> wf a -> same_shape a x -> same_shape a y ->
  returns_like a (rolling_cov x y W mp None).
Proof.
  intros Hmean Hnd Hwf Hx Hy. unfold rolling_cov.
  apply (flex_binary_moment_like a x y _ Hnd Hwf Hx Hy).
  intros X Y HX HY.
  apply (returns_like_bind a); [now apply binop_like |]. intros s Hs.
  apply (returns_like_bind a); [now apply rolling_count_like |]. intros count Hcount.
  apply (returns_like_bind a); [now apply scalar_op_like |]. intros cm1 Hcm1.
  apply (returns_like_bind a); [now apply binop_like |]. intros adj Hadj.
  apply (returns_like_bind a); [now apply binop_like |]. intros xy Hxy.
  apply (returns_like_bind a); [now apply rolling_func_like |]. intros mxy Hmxy.
  apply (returns_like_bind a); [now apply rolling_func_like |]. intros mx Hmx.
  apply (returns_like_bind a); [now apply rolling_func_like |]. intros my Hmy.
  apply (returns_like_bind a); [now apply binop_like |]. intros p Hp.
  apply (returns_like_bind a); [now apply binop_like |]. intros d Hd.
  now apply binop_like.
Qed.

Lemma rolling_corr_like (a x y : data) (W : Z) (mp : option Z) :
  length_preserving roll_mean -> length_preserving roll_var ->
  is_ndarray a = true -> wf a -> same_shape a x -> same_shape a y ->
  returns_like a (rolling_corr x y W mp None).
Proof.
  intros Hmean Hvar Hnd Hwf Hx Hy. unfold rolling_corr.
  apply (flex_binary_moment_like a x y _ Hnd Hwf Hx Hy).
  intros X Y HX HY.
  apply (returns_like_bind a); [now apply rolling_cov_like |]. intros num Hnum.
  apply (returns_like_bind a);
    [apply rolling_func_like; auto using ts_std_length |]. intros sa Hsa.
  apply (returns_like_bind a);
    [apply rolling_func_like; auto using ts_std_length |]. intros sb Hsb.
  apply (returns_like_bind a); [now apply binop_like |]. intros den Hden.
  now apply binop_like.
Qed.

(** *** The loops of the pairwise matrix builder *)

Lemma foldM_app {A B} (f : B -> A -> M B) (b : B) (l1 l2 : list A) :
  foldM_M f b (l1 ++ l2) = foldM_M f b l1 ≫= fun b' => foldM_M f b' l2.
Proof.
  revert b. induction l1 as [| a l1 IH]; intros b; cbn [foldM_M app].
  - now rewrite bind_ret_l.
  - rewrite bind_assoc. apply bind_ext. intros b'. apply IH.
Qed.

Lemma inner_loop_pairs (corr : string -> string -> M data) (k1 : string)
    (d : gmap string (gmap string data)) (l : list string) :
  foldM_M (fun all_results k2 =>
             c ← corr k1 k2;
             let all_results := setitem2 all_results k1 k2 c in
             let all_results := setitem2 all_results k2 k1 c in
             ret all_results) d l
  = foldM_M (store_pair corr) d (map (fun k2 => (k1, k2)) l).
Proof.
  revert d. induction l as [| k2 l IH]; intros d; [reflexivity |].
  cbn [foldM_M map]. apply bind_ext. intros d'. apply IH.
Qed.

Lemma outer_loop_pairs (corr : string -> string -> M data)
    (columns : list string) (h : nat -> nat) (cs : list string)
    (d : gmap string (gmap string data)) :
  foldM_M (fun all_results '(i, k1) =>
      foldM_M (fun all_results k2 =>
          c ← corr k1 k2;
          let all_results := setitem2 all_results k1 k2 c in
          let all_results := setitem2 all_results k2 k1 c in
          ret all_results) all_results (drop i columns))
    d (imap (fun i k => (h i, k)) cs)
  = foldM_M (store_pair corr) d
      (concat (imap (fun i k1 => map (fun k2 => (k1, k2)) (drop (h i) columns))
                    cs)).
Proof.
  revert h d. induction cs as [| k1 cs IH]; intros h d; [reflexivity |].
  cbn [imap foldM_M concat]. rewrite foldM_app, inner_loop_pairs.
  apply bind_ext. intros d'. apply (IH (h ∘ S)).
Qed.

(** The two loops compute the statistic for the pairs of the upper triangle,
    in order, and for no other pair. *)
Lemma pairwise_loops_upper (corr : string -> string -> M data)
    (columns : list string) :
  pairwise_loops corr columns
  = foldM_M (store_pair corr) ∅ (upper_pairs columns).
Proof. exact (outer_loop_pairs corr columns id columns ∅). Qed.

(** The pairs of the upper triangle are the pairs of a column and a column
    at the same or a later position. *)
Lemma elem_of_upper_pairs (columns : list string) (a b : string) :
  (a, b) ∈ upper_pairs columns
  <-> exists i j : nat, (i <= j)%nat /\ columns !! i = Some a
                        /\ columns !! j = Some b.
Proof.
  unfold upper_pairs. rewrite list_elem_of_In, in_concat. split.
  - intros (l & Hl & Hab).
    apply list_elem_of_In, elem_of_lookup_imap in Hl as (i & k1 & -> & Hk1).
    apply in_map_iff in Hab as (k2 & [= <- <-] & Hk2).
    apply list_elem_of_In, list_elem_of_lookup in Hk2 as (n & Hn).
    rewrite lookup_drop in Hn.
    exists i, (i + n)%nat. repeat split; [lia | exact Hk1 | exact Hn].
  - intros (i & j & Hij & Hi & Hj).
    exists (map (fun k2 => (a, k2)) (drop i columns)). split.
    + apply list_elem_of_In, elem_of_lookup_imap. now exists i, a.
    + apply in_map_iff. exists b. split; [reflexivity |].
      apply list_elem_of_In, list_elem_of_lookup. exists (j - i)%nat.
      rewrite lookup_drop. now replace (i + (j - i))%nat with j by lia.
Qed.

(** *** The dictionary of results *)

Lemma lookup2_setitem2 {V} (d : gmap string (gmap string V)) (a b : string)
    (c : V) (k1 k2 : string) :
  lookup2 (setitem2 d a b c) k1 k2
  = if decide (k1 = a /\ k2 = b) then Some c else lookup2 d k1 k2.
Proof.
  unfold lookup2, setitem2. rewrite lookup_insert.
  destruct (decide (a = k1)) as [<- |].
  - cbn. rewrite lookup_insert.
    destruct (decide (b = k2)) as [<- |].
    + now rewrite decide_True by auto.
    + rewrite decide_False by (intros [_ ?]; congruence).
      now destruct (d !! a).
  - now rewrite decide_False by (intros [? _]; congruence).
Qed.

(** Storing a value at an entry and at its transpose. *)
Lemma lookup2_store {V} (d : gmap string (gmap string V)) (a b : string)
    (c : V) (k1 k2 : string) :
  lookup2 (setitem2 (setitem2 d a b c) b a c) k1 k2
  = if decide ((k1 = a /\ k2 = b) \/ (k1 = b /\ k2 = a)) then Some c
    else lookup2 d k1 k2.
Proof.
  rewrite !lookup2_setitem2.
  destruct (decide (k1 = b /\ k2 = a)), (decide (k1 = a /\ k2 = b));
    now (rewrite decide_True by tauto) || (rewrite decide_False by tauto).
Qed.

Lemma store_pair_res (corr : string -> string -> M data)
    (d d' : gmap string (gmap string data)) (p : string * string) :
  res (store_pair corr d p) = inr d' ->
  exists c, res (corr p.1 p.2) = inr c
            /\ d' = setitem2 (setitem2 d p.1 p.2 c) p.2 p.1 c.
Proof.
  unfold store_pair. rewrite res_bind.
  destruct (res (corr p.1 p.2)) as [e | c]; [discriminate |].
  rewrite res_ret. intros [= <-]. now exists c.
Qed.

Lemma foldM_invariant {A B} (I : B -> Prop) (step : B -> A -> M B)
    (l : list A) (d P : B) :
  (forall d p d', I d -> res (step d p) = inr d' -> I d') ->
  I d -> res (foldM_M step d l) = inr P -> I P.
Proof.
  intros Hstep. revert d. induction l as [| p l IH]; intros d Hd; cbn [foldM_M].
  - rewrite res_ret. now intros [= <-].
  - rewrite res_bind. destruct (res (step d p)) as [e | d'] eqn:E; [discriminate |].
    apply IH. now apply (Hstep d p).
Qed.

Lemma foldM_total {A B} (step : B -> A -> M B) (l : list A) (d : B) :
  (forall d p, p ∈ l -> exists d', res (step d p) = inr d') ->
  exists P, res (foldM_M step d l) = inr P.
Proof.
  revert d. induction l as [| p l IH]; intros d Hstep; cbn [foldM_M].
  - now exists d.
  - destruct (Hstep d p) as (d' & E); [left |].
    destruct (IH d') as (P & HP).
    + intros d0 q Hq. apply Hstep. now right.
    + exists P. now rewrite res_bind, E.
Qed.

(** The dictionary is symmetric after every pair of assignments. *)
Lemma store_pair_symmetric (corr : string -> string -> M data)
    (d d' : gmap string (gmap string data)) (p : string * string) :
  (forall k1 k2, lookup2 d k1 k2 = lookup2 d k2 k1) ->
  res (store_pair corr d p) = inr d' ->
  forall k1 k2, lookup2 d' k1 k2 = lookup2 d' k2 k1.
Proof.
  intros Hd Hr k1 k2. apply store_pair_res in Hr as (c & _ & ->).
  rewrite !lookup2_store, (Hd k1 k2).
  destruct (decide ((k1 = p.1 /\ k2 = p.2) \/ (k1 = p.2 /\ k2 = p.1)));
    now (rewrite decide_True by tauto) || (rewrite decide_False by tauto).
Qed.

Lemma stored_fold (corr : string -> string -> M data)
    (L : list (string * string)) :
  (forall a b, (a, b) ∈ L -> (b, a) ∈ L -> a = b) ->
  forall (l pre : list (string * string)) d P,
    L = pre ++ l -> stored corr pre d ->
    res (foldM_M (store_pair corr) d l) = inr P ->
    stored corr L P.
Proof.
  intros Hanti l. induction l as [| p l IH]; intros pre d P HL Hd; cbn [foldM_M].
  - rewrite res_ret. intros [= <-]. now rewrite HL, app_nil_r.
  - rewrite res_bind.
    destruct (res (store_pair corr d p)) as [e | d'] eqn:E; [discriminate |].
    apply (IH (pre ++ [p])); [now rewrite <- app_assoc |].
    apply store_pair_res in E as (c & Hc & ->). destruct p as [a0 b0].
    cbn [fst snd] in *. intros a b Hab.
    assert (Hin : forall q, q ∈ pre ++ [(a0, b0)] -> q ∈ L).
    { intros q Hq. rewrite HL. apply elem_of_app in Hq as [Hq | Hq].
      - apply elem_of_app. now left.
      - apply list_elem_of_singleton in Hq as ->. apply elem_of_app.
        right. left. }
    assert (HpL : (a0, b0) ∈ L).
    { apply Hin, elem_of_app. right. left. }
    destruct (decide ((a = a0 /\ b = b0) \/ (a = b0 /\ b = a0))) as [Heq | Hne].
    + exists c. rewrite !lookup2_store, !decide_True by tauto.
      split; [| now split].
      destruct Heq as [[-> ->] | [-> ->]]; [exact Hc |].
      assert (b0 = a0) as ->; [| exact Hc].
      apply Hanti; [| exact HpL]. now apply Hin.
    + apply elem_of_app in Hab as [Hab | Hab].
      * destruct (Hd a b Hab) as (c' & Hc' & H1 & H2).
        exists c'. rewrite !lookup2_store, !decide_False by tauto. auto.
      * apply list_elem_of_singleton in Hab. injection Hab as -> ->. tauto.
Qed.

(** *** The pairwise matrix builder *)

Lemma position_lookup {A} `{EqDecision A} (x : A) (l : list A) :
  x ∈ l -> exists i, position x l = Some i /\ l !! i = Some x.
Proof.
  intros Hx. unfold position.
  destruct (list_find_elem_of (fun y => y = x) l x Hx eq_refl) as ([i y] & Hf).
  rewrite Hf. apply list_find_Some in Hf as (Hi & -> & _).
  now exists i.
Qed.

Lemma getitem_wf (index : list label) (columns : list string)
    (values : list (list float)) (k : string) :
  wf (DataFrame index columns values) -> k ∈ columns ->
  exists v, res (getitem (DataFrame index columns values) k)
            = inr (Series index v)
            /\ length v = length index.
Proof.
  intros (_ & Hlen & Hall) Hk. cbn [getitem].
  destruct (position_lookup k columns Hk) as (i & -> & Hi).
  destruct (lookup_lt_is_Some_2 values i) as (v & Hv).
  { rewrite Hlen. now apply lookup_lt_Some in Hi. }
  exists v. cbn. rewrite Hv. split; [reflexivity |].
  rewrite Forall_forall in Hall. apply Hall.
  apply list_elem_of_lookup. now exists i.
Qed.

(** On a well-formed table the correlation of two of its columns returns a
    Series on the index of the table. *)
Lemma column_corr_returns (index : list label) (columns : list string)
    (values : list (list float)) (W : Z) (mp : option Z) (k1 k2 : string) :
  length_preserving roll_mean -> length_preserving roll_var ->
  wf (DataFrame index columns values) -> k1 ∈ columns -> k2 ∈ columns ->
  exists a b c,
    res (getitem (DataFrame index columns values) k1) = inr a
    /\ res (getitem (DataFrame index columns values) k2) = inr b
    /\ res (rolling_corr a b W mp None) = inr c
    /\ same_shape a c
    /\ res (a ← getitem (DataFrame index columns values) k1;
            b ← getitem (DataFrame index columns values) k2;
            rolling_corr a b W mp None) = inr c.
Proof.
  intros Hmean Hvar Hwf H1 H2.
  destruct (getitem_wf index columns values k1 Hwf H1) as (v1 & E1 & L1).
  destruct (getitem_wf index columns values k2 Hwf H2) as (v2 & E2 & L2).
  destruct (rolling_corr_like (Series index v1) (Series index v1)
              (Series index v2) W mp Hmean Hvar eq_refl L1)
    as (c & Ec & Hc).
  - apply same_shape_refl.
  - cbn. split; [reflexivity | congruence].
  - exists (Series index v1), (Series index v2), c.
    repeat split; auto.
    rewrite res_bind, E1. cbn beta iota. now rewrite res_bind, E2.
Qed.

Lemma rolling_corr_pairwise_upper_triangle_aux (index : list label)
    (columns : list string) (values : list (list float)) (W : Z)
    (mp : option Z) :
  rolling_corr_pairwise (DataFrame index columns values) W mp
  = foldM_M (store_pair (column_corr (DataFrame index columns values) W mp))
            ∅ (upper_pairs columns).
Proof. apply pairwise_loops_upper. Qed.


Lemma upper_pairs_length_aux (columns cs : list string) (m : nat) :
  (length cs + m = length columns)%nat ->
  (2 * length (concat (imap (fun i k1 => map (fun k2 => (k1, k2))
                                             (drop (m + i) columns)) cs))
   = length cs * (length cs + 1))%nat.
Proof.
  revert m. induction cs as [| c cs IH]; intros m Hm; [reflexivity |].
  cbn [imap concat]. rewrite length_app, length_map, length_drop.
  rewrite (imap_ext _ (fun i k1 => map (fun k2 => (k1, k2))
                                       (drop (S m + i) columns))).
  - cbn [length] in *. specialize (IH (S m)). rewrite Nat.add_0_r. lia.
  - intros i x _. cbn. do 2 f_equal. lia.
Qed.

Lemma upper_pairs_count (columns : list string) :
  (2 * length (upper_pairs columns)
   = length columns * (length columns + 1))%nat.
Proof.
  unfold upper_pairs.
  apply (upper_pairs_length_aux columns columns 0). lia.
Qed.

(** [rolling_corr_pairwise] computes [rolling_corr] for the pairs of the
    upper triangle of the column list (each column with itself and with the
    columns after it), in row order, and stores each result at the entry and
    at its transpose; no other pair is computed, so a table of [n] columns
    costs [n (n + 1) / 2] rolling correlations. *)
Theorem rolling_corr_pairwise_upper_triangle (index : list label)
    (columns : list string) (values : list (list float)) (W : Z)
    (mp : option Z) :
  rolling_corr_pairwise (DataFrame index columns values) W mp
  = foldM_M (store_pair (column_corr (DataFrame index columns values) W mp))
            ∅ (upper_pairs columns)
  /\ (forall a b, (a, b) ∈ upper_pairs columns
                  <-> exists i j : nat, (i <= j)%nat /\ columns !! i = Some a
                                        /\ columns !! j = Some b)
  /\ (2 * length (upper_pairs columns)
      = length columns * (length columns + 1))%nat.
Proof.
  split; [apply rolling_corr_pairwise_upper_triangle_aux |].
  split; [apply elem_of_upper_pairs | apply upper_pairs_count].
Qed.

Lemma lookup2_empty {V} (k1 k2 : string) :
  lookup2 (∅ : gmap string (gmap string V)) k1 k2 = None.
Proof. unfold lookup2. now rewrite lookup_empty. Qed.

Lemma pairwise_symmetric (df : data) (W : Z) (mp : option Z)
    (P : gmap string (gmap string data)) :
  res (rolling_corr_pairwise df W mp) = inr P ->
  forall k1 k2, lookup2 P k1 k2 = lookup2 P k2 k1.
Proof.
  destruct df as [a | i v | index columns values]; try discriminate.
  rewrite rolling_corr_pairwise_upper_triangle_aux. intros HP.
  refine (foldM_invariant
            (fun d => forall k1 k2, lookup2 d k1 k2 = lookup2 d k2 k1)
            _ _ _ _ (fun d p d' => store_pair_symmetric _ d d' p) _ HP).
  intros k1 k2. now rewrite !lookup2_empty.
Qed.

(** Whenever [rolling_corr_pairwise] returns, the dictionary it has filled is
    symmetric, and so is the (time, column, column) structure built from it:
    [M[t][c_i][c_j]] and [M[t][c_j][c_i]] are the same value, or are both
    absent; this needs no assumption on the table or on the reducers. *)
Theorem rolling_corr_pairwise_symmetric (df : data) (W : Z) (mp : option Z)
    (P : gmap string (gmap string data)) :
  res (rolling_corr_pairwise df W mp) = inr P ->
  (forall k1 k2, lookup2 P k1 k2 = lookup2 P k2 k1)
  /\ (forall t ci cj, panel_at P t ci cj = panel_at P t cj ci).
Proof.
  intros HP. assert (H := pairwise_symmetric df W mp P HP).
  split; [exact H |]. intros t ci cj. unfold panel_at. now rewrite H.
Qed.

Lemma upper_pairs_antisym (columns : list string) (a b : string) :
  NoDup columns ->
  (a, b) ∈ upper_pairs columns -> (b, a) ∈ upper_pairs columns -> a = b.
Proof.
  intros Hnd Hab Hba.
  apply elem_of_upper_pairs in Hab as (i & j & Hij & Hi & Hj).
  apply elem_of_upper_pairs in Hba as (i' & j' & Hij' & Hi' & Hj').
  assert (i' = j) by (eapply NoDup_lookup; eauto).
  assert (j' = i) by (eapply NoDup_lookup; eauto).
  assert (i = j) by lia. subst. congruence.
Qed.

Lemma pairwise_entries (index : list label) (columns : list string)
    (values : list (list float)) (W : Z) (mp : option Z) :
  length_preserving roll_mean -> length_preserving roll_var ->
  wf (DataFrame index columns values) -> NoDup columns ->
  exists P,
    res (rolling_corr_pairwise (DataFrame index columns values) W mp) = inr P
    /\ forall (i j : nat) (ci cj : string),
         (i <= j)%nat -> columns !! i = Some ci -> columns !! j = Some cj ->
         exists a b c,
           res (getitem (DataFrame index columns values) ci) = inr a
           /\ res (getitem (DataFrame index columns values) cj) = inr b
           /\ res (rolling_corr a b W mp None) = inr c
           /\ same_shape a c
           /\ lookup2 P ci cj = Some c /\ lookup2 P cj ci = Some c.
Proof.
  intros Hmean Hvar Hwf Hnd.
  rewrite rolling_corr_pairwise_upper_triangle_aux.
  set (df := DataFrame index columns values).
  assert (Hcol : forall a b, (a, b) ∈ upper_pairs columns ->
                             a ∈ columns /\ b ∈ columns).
  { intros a b Hab. apply elem_of_upper_pairs in Hab as (i & j & _ & Hi & Hj).
    split; apply list_elem_of_lookup; eauto. }
  destruct (foldM_total (store_pair (column_corr df W mp))
              (upper_pairs columns) ∅) as (P & HP).
  { intros d [a b] Hab. destruct (Hcol a b Hab) as [Ha Hb].
    destruct (column_corr_returns index columns values W mp a b
                Hmean Hvar Hwf Ha Hb) as (x & y & c & _ & _ & _ & _ & Ec).
    eexists. unfold store_pair. cbn [fst snd].
    rewrite res_bind. unfold column_corr. fold df in Ec. rewrite Ec.
    reflexivity. }
  exists P. split; [exact HP |].
  assert (Hst : stored (column_corr df W mp) (upper_pairs columns) P).
  { apply (stored_fold (column_corr df W mp) (upper_pairs columns)
             (fun a b => upper_pairs_antisym columns a b Hnd)
             (upper_pairs columns) [] ∅ P eq_refl); [| exact HP].
    intros a b Hab. now apply elem_of_nil in Hab. }
  intros i j ci cj Hij Hi Hj.
  assert (Hab : (ci, cj) ∈ upper_pairs columns).
  { apply elem_of_upper_pairs. now exists i, j. }
  destruct (Hst ci cj Hab) as (c & Ec & L1 & L2).
  destruct (Hcol ci cj Hab) as [Ha Hb].
  destruct (column_corr_returns index columns values W mp ci cj
              Hmean Hvar Hwf Ha Hb) as (x & y & c' & Ex & Ey & Er & Hs & Ec').
  exists x, y, c'. fold df in Ec'. unfold column_corr in Ec.
  rewrite Ec' in Ec. injection Ec as <-. auto 10.
Qed.

(** On a well-formed table with distinct column names (and reducers that
    keep the length of their input) [rolling_corr_pairwise] returns, and for
    every pair of positions [i <= j] of the column list the entries
    [(c_i, c_j)] and [(c_j, c_i)] both hold the Series that
    [rolling_corr(df[c_i], df[c_j])] returns, a Series on the index of the
    table. *)
Theorem rolling_corr_pairwise_entries (index : list label)
    (columns : list string) (values : list (list float)) (W : Z)
    (mp : option Z) :
  length_preserving roll_mean -> length_preserving roll_var ->
  wf (DataFrame index columns values) -> NoDup columns ->
  exists P,
    res (rolling_corr_pairwise (DataFrame index columns values) W mp) = inr P
    /\ forall (i j : nat) (ci cj : string),
         (i <= j)%nat -> columns !! i = Some ci -> columns !! j = Some cj ->
         exists a b c,
           res (getitem (DataFrame index columns values) ci) = inr a
           /\ res (getitem (DataFrame index columns values) cj) = inr b
           /\ res (rolling_corr a b W mp None) = inr c
           /\ same_shape a c
           /\ lookup2 P ci cj = Some c /\ lookup2 P cj ci = Some c.
Proof. apply pairwise_entries. Qed.


(** *** Further properties of the paired operations *)

(** For two raw arrays of one shape, or two Series on one index,
    [rolling_cov] and [rolling_corr] return a result of the kind, the length
    and the index of the operands (the reducers keeping the length of their
    input). *)
Theorem paired_output_shape (x y : data) (W : Z) (mp : option Z) :
  length_preserving roll_mean -> length_preserving roll_var ->
  is_ndarray x = true -> wf x -> same_shape x y ->
  (exists out, res (rolling_cov x y W mp None) = inr out /\ same_shape x out)
  /\ (exists out, res (rolling_corr x y W mp None) = inr out
                  /\ same_shape x out).
Proof.
  intros Hmean Hvar Hnd Hwf Hs. split.
  - now apply (rolling_cov_like x x y W mp Hmean Hnd Hwf (same_shape_refl x)).
  - now apply (rolling_corr_like x x y W mp Hmean Hvar Hnd Hwf
                 (same_shape_refl x)).
Qed.

Lemma isnan_masked (a b : float) :
  isnan (masked a b) = isnan a || negb (isfinite b).
Proof.
  destruct a as [[] | [] | | [] ? ?], b as [[] | [] | | [] ? ?]; reflexivity.
Qed.

Lemma broadcast1_same_length (f : float -> float -> float) (v w : list float) :
  length v = length w -> Np.broadcast1 f v w = ret (zip_with f v w).
Proof.
  intros H. unfold Np.broadcast1. now destruct (decide (length v = length w)).
Qed.

Lemma zip_with_map_r (f : float -> float -> float) (g : float -> float)
    (v w : list float) :
  zip_with f v (map g w) = zip_with (fun a b => f a (g b)) v w.
Proof.
  revert w. induction v as [| a v IH]; intros [| b w]; cbn; congruence.
Qed.

(** [_prep_binary] on two raw arrays of one length, and on two Series on one
    index: both operands come back with NaN exactly at the positions where
    the operand itself is NaN or the other one is not finite, so every
    position missing in either input is missing in both outputs. *)
Theorem prep_binary_mask (v w : list float) :
  length v = length w ->
  res (_prep_binary (NDArray (Arr1 v)) (NDArray (Arr1 w)))
  = inr (NDArray (Arr1 (zip_with masked v w)),
         NDArray (Arr1 (zip_with masked w v)))
  /\ (forall index : list label,
        length v = length index ->
        res (_prep_binary (Series index v) (Series index w))
        = inr (Series index (zip_with masked v w),
               Series index (zip_with masked w v)))
  /\ (forall (i : nat) (a b : float),
        v !! i = Some a -> w !! i = Some b ->
        zip_with masked v w !! i = Some (masked a b)
        /\ zip_with masked w v !! i = Some (masked b a)
        /\ isnan (masked a b) = isnan a || negb (isfinite b)
        /\ isnan (masked b a) = isnan b || negb (isfinite a)).
Proof.
  intros Hl. split; [| split].
  - unfold _prep_binary. cbn [isinstance_of negb].
    unfold scalar_op, binop. repeat proc_step.
    cbn [map_values Np.map_nd Np.broadcast].
    rewrite res_fmap, res_fmap, broadcast1_same_length, res_ret
      by (now rewrite length_map).
    repeat proc_step.
    rewrite res_fmap, res_fmap, broadcast1_same_length, res_ret
      by (now rewrite length_map).
    now rewrite !zip_with_map_r.
  - intros index Hi. unfold _prep_binary. cbn [isinstance_of negb].
    unfold scalar_op, binop. repeat proc_step. cbn [map_values].
    destruct (decide (index = index)); [| congruence].
    rewrite res_bind, broadcast1_same_length, res_ret
      by (now rewrite length_map).
    cbn [mk_series].
    destruct (decide (length (zip_with add v (map (mul zero) w))
                      = length index)) as [| Hn];
      [| exfalso; apply Hn; rewrite length_zip_with, length_map; lia].
    repeat proc_step.
    destruct (decide (index = index)); [| congruence].
    rewrite res_bind, broadcast1_same_length, res_ret
      by (now rewrite length_map).
    cbn [mk_series].
    destruct (decide (length (zip_with add w (map (mul zero) v))
                      = length index)) as [| Hn];
      [| exfalso; apply Hn; rewrite length_zip_with, length_map; lia].
    now rewrite !zip_with_map_r.
  - intros i a b Ha Hb. rewrite !isnan_masked.
    repeat split; rewrite lookup_zip_with; [rewrite Ha, Hb | rewrite Hb, Ha];
      reflexivity.
Qed.

(** *** Further properties of the exponentially weighted operations *)

(** What the warm-up gate of [ewma] does on a raw array that is not empty:
    with [fv] the first valid position of the input (infinite entries
    counting as missing, position 0 when nothing is valid), the output is
    the recursion's value except at the positions [fv <= i < stop], which
    are missing; [stop] is [fv + min_periods], counted from the end of the
    array when it is negative, as Python reads a slice bound.  So a
    [min_periods >= 0] blanks the first [min_periods] outputs from [fv] on,
    and nothing before [fv]. *)
Theorem ewma_forced_positions (v : list float) (com span : option float)
    (mp : Z) (tr : option string) (c : float) :
  _get_center_of_mass com span = ret c ->
  v <> [] ->
  exists out : list float,
    res (ewma (NDArray (Arr1 v)) com span mp tr) = inr (NDArray (Arr1 out))
    /\ length out = length v
    /\ forall i : nat,
         (i < length v)%nat ->
         let fv := Z.of_nat (first_valid (map Np.inf_to_nan v)) in
         let stop := if fv + mp <? 0 then fv + mp + Z.of_nat (length v)
                     else fv + mp in
         out !! i
         = if (fv <=? Z.of_nat i) && (Z.of_nat i <? stop) then Some nan
           else Tseries.ewma (map Np.inf_to_nan v) c !! i.
Proof.
  intros Hc Hne. exists (ewma_column c mp v). split; [| split].
  - apply (ewma_res (NDArray (Arr1 v)) (NDArray (Arr1 v)) com span mp tr c Hc).
    + now rewrite conv_timerule_ndarray.
    + exact I.
    + destruct v; [congruence | cbn; lia].
  - apply ewma_column_length.
  - intros i Hi. cbn zeta. unfold ewma_column, Np.set_slice. cbn zeta.
    rewrite list_lookup_imap.
    assert (Hlen : length (Tseries.ewma (map Np.inf_to_nan v) c) = length v).
    { unfold Tseries.ewma. now rewrite ewma_from_length, length_map. }
    rewrite Hlen.
    destruct (lookup_lt_is_Some_2 (Tseries.ewma (map Np.inf_to_nan v) c) i)
      as (y & Hy); [lia |].
    rewrite Hy. cbn [fmap option_fmap option_map].
    set (fv := Z.of_nat (first_valid (map Np.inf_to_nan v))).
    assert (Hfv : 0 <= fv) by (unfold fv; lia).
    assert (Ha : (Np.slice_bound (Z.of_nat (length v)) fv <=? Z.of_nat i)
                 = (fv <=? Z.of_nat i)).
    { unfold Np.slice_bound. destruct (fv <? 0) eqn:E; [lia |].
      apply eq_true_iff_eq. rewrite !Z.leb_le. lia. }
    assert (Hb : (Z.of_nat i <? Np.slice_bound (Z.of_nat (length v)) (fv + mp))
                 = (Z.of_nat i <? (if fv + mp <? 0
                                   then fv + mp + Z.of_nat (length v)
                                   else fv + mp))).
    { unfold Np.slice_bound. destruct (fv + mp <? 0) eqn:E;
        apply eq_true_iff_eq; rewrite !Z.ltb_lt; lia. }
    rewrite Ha, Hb.
    now destruct ((fv <=? Z.of_nat i) && _).
Qed.

(** A span is the centre of mass [(span - 1) / 2]: [ewma], [ewmvar],
    [ewmstd] and [ewmcorr] called with a span alone do what they do when
    called with that centre of mass alone. *)
Theorem ewm_span_is_com (s : float) (mp : Z) (tr : option string) :
  (forall arg,
     ewma arg None (Some s) mp tr
     = ewma arg (Some (div (sub s one) two)) None mp tr)
  /\ (forall arg bias,
        ewmvar arg None (Some s) mp bias tr
        = ewmvar arg (Some (div (sub s one) two)) None mp bias tr)
  /\ (forall arg bias,
        ewmstd arg None (Some s) mp bias tr
        = ewmstd arg (Some (div (sub s one) two)) None mp bias tr)
  /\ (forall arg1 arg2,
        ewmcorr arg1 arg2 None (Some s) mp tr
        = ewmcorr arg1 arg2 (Some (div (sub s one) two)) None mp tr).
Proof.
  repeat split; reflexivity.
Qed.

(** [ewmcov] called with a span alone and [bias=False] never returns: it
    computes what it computes with [bias=True] and then raises [TypeError],
    because its correction factor is computed from the [com] argument as
    given, which is [None]. *)
Theorem ewmcov_span_unbiased_fails (arg1 arg2 : data) (s : float) (mp : Z)
    (tr : option string) :
  ewmcov arg1 arg2 None (Some s) mp false tr
  = (_ ← ewmcov arg1 arg2 None (Some s) mp true tr; raise TypeError).
Proof.
  unfold ewmcov. cbn [negb]. rewrite bind_assoc.
  apply bind_ext; intros [X Y]. rewrite bind_assoc.
  apply bind_ext; intros X'. rewrite bind_assoc.
  apply bind_ext; intros Y'. rewrite bind_assoc.
  apply bind_ext; intros xy. rewrite bind_assoc.
  apply bind_ext; intros mxy. rewrite bind_assoc.
  apply bind_ext; intros mx. rewrite bind_assoc.
  apply bind_ext; intros my. rewrite bind_assoc.
  apply bind_ext; intros p. rewrite bind_assoc.
  apply bind_ext; intros r. now rewrite bind_ret_l.
Qed.

(** *** Further properties of the rolling operations *)

(** [rolling_count] clips its window to the length of the input: every
    window at least as long as the input gives the result of the window of
    that length. *)
Theorem rolling_count_clips_window (arg arg' : data) (W : Z)
    (tr : option string) :
  res (_conv_timerule arg tr) = inr arg' ->
  wf arg' ->
  Z.of_nat (len arg') <= W ->
  res (rolling_count arg W tr)
  = res (rolling_count arg (Z.of_nat (len arg')) tr).
Proof.
  intros Hc Hwf HW.
  rewrite (rolling_count_res arg arg' W tr Hc Hwf).
  rewrite (rolling_count_res arg arg' (Z.of_nat (len arg')) tr Hc Hwf).
  now rewrite Z.min_r, Z.min_id by lia.
Qed.

Lemma inf_to_nan_idem (x : float) :
  Np.inf_to_nan (Np.inf_to_nan x) = Np.inf_to_nan x.
Proof. now destruct x. Qed.

Lemma isfinite_inf_to_nan (x : float) :
  isfinite (Np.inf_to_nan x) = isfinite x.
Proof. now destruct x. Qed.

Lemma map_nd_idem (a : ndarray) :
  Np.map_nd Np.inf_to_nan (Np.map_nd Np.inf_to_nan a) = Np.map_nd Np.inf_to_nan a.
Proof.
  destruct a as [v | cols]; cbn [Np.map_nd]; f_equal; rewrite map_map.
  - apply map_ext, inf_to_nan_idem.
  - apply map_ext. intros c. rewrite map_map. apply map_ext, inf_to_nan_idem.
Qed.

Lemma process_inf_to_nan (arg : data) :
  _process_data_structure (map_values Np.inf_to_nan arg) true
  = _process_data_structure arg true.
Proof.
  destruct arg as [a | i v | i c vals];
    cbn [_process_data_structure map_values].
  - now rewrite map_nd_idem.
  - change (Arr1 (map Np.inf_to_nan v)) with (Np.map_nd Np.inf_to_nan (Arr1 v)).
    now rewrite map_nd_idem.
  - change (Arr2 (map (map Np.inf_to_nan) vals))
      with (Np.map_nd Np.inf_to_nan (Arr2 vals)).
    now rewrite map_nd_idem.
Qed.

Lemma rolling_moment_inf_to_nan (arg : data) (W : Z)
    (func : list float -> Z -> option Z -> M (list float)) (minp : option Z) :
  _rolling_moment (map_values Np.inf_to_nan arg) W func minp None
  = _rolling_moment arg W func minp None.
Proof.
  unfold _rolling_moment. rewrite !conv_timerule_none, !bind_ret_l.
  now rewrite process_inf_to_nan.
Qed.

Lemma len_map_values (f : float -> float) (d : data) :
  len (map_values f d) = len d.
Proof.
  destruct d as [[v | [| c cols]] | i v | i c vals]; cbn;
    now rewrite ?length_map.
Qed.

(** The rolling operations and [ewma] read an infinite entry as a missing
    one: replacing the infinities of the input by NaN beforehand changes
    nothing, neither in the result nor in what is computed. *)
Theorem infinite_is_missing (arg : data) (W : Z) (mp : option Z) :
  (forall op : window_op,
     run_window_op op (map_values Np.inf_to_nan arg) W mp None
     = run_window_op op arg W mp None)
  /\ (forall com span m,
        ewma (map_values Np.inf_to_nan arg) com span m None
        = ewma arg com span m None).
Proof.
  split.
  - intros op. destruct op; cbn [run_window_op];
      try apply rolling_moment_inf_to_nan.
    unfold rolling_count. rewrite !conv_timerule_none, !bind_ret_l.
    rewrite len_map_values.
    destruct arg as [[v | cols] | i v | i c vals];
      cbn [_process_data_structure map_values Np.map_nd];
      rewrite !bind_ret_l; cbn [Np.map_nd]; rewrite !map_map;
      repeat f_equal.
    + rewrite (map_ext _ (fun x => of_bool (isfinite x))); [reflexivity |].
      intros x. now rewrite isfinite_inf_to_nan.
    + erewrite map_ext; [reflexivity |]. intros col. cbn. rewrite map_map.
      apply map_ext. intros x. now rewrite isfinite_inf_to_nan.
    + rewrite (map_ext _ (fun x => of_bool (isfinite x))); [reflexivity |].
      intros x. now rewrite isfinite_inf_to_nan.
    + erewrite map_ext; [reflexivity |]. intros col. cbn. rewrite map_map.
      apply map_ext. intros x. now rewrite isfinite_inf_to_nan.
  - intros com span m. unfold ewma. apply bind_ext. intros c.
    rewrite !conv_timerule_none, !bind_ret_l.
    now rewrite process_inf_to_nan.
Qed.

Lemma map_values_map_columns (f : float -> float)
    (g : list float -> list float) (d : data) :
  map_values f (map_columns g d) = map_columns (fun c => map f (g c)) d.
Proof.
  destruct d as [[v | cols] | i v | i c vals];
    cbn [map_values map_columns Np.map_nd Np.map_cols];
    now rewrite ?map_map.
Qed.

(** [rolling_std] returns the elementwise square root of what [rolling_var]
    returns, on every well-formed input and for every window and
    [min_periods] (the variance reducer keeping the length of its input). *)
Theorem rolling_std_is_sqrt_var (arg arg' : data) (W : Z) (mp : option Z)
    (tr : option string) :
  length_preserving roll_var ->
  res (_conv_timerule arg tr) = inr arg' ->
  wf arg' ->
  res (rolling_std arg W mp tr)
  = res (r ← rolling_var arg W mp tr; scalar_op EvSqrt sqrt r).
Proof.
  intros Hk Hc Hwf. unfold rolling_std, rolling_var.
  rewrite (rolling_func_res _ts_std _ arg arg' W mp tr
             (ts_std_length Hk) Hc Hwf).
  rewrite res_bind, (rolling_func_res roll_var _ arg arg' W mp tr Hk Hc Hwf).
  cbn beta iota. unfold scalar_op. rewrite res_bind, res_tick. cbn beta iota.
  now rewrite res_ret, map_values_map_columns.
Qed.

(** A raw array is never conformed to a time rule: on a raw array every
    single-argument operation does with a [time_rule] what it does
    without. *)
Theorem time_rule_ignored_on_arrays (a : ndarray) (tr : option string) :
  (forall op W mp,
     run_window_op op (NDArray a) W mp tr
     = run_window_op op (NDArray a) W mp None)
  /\ (forall op com span mp,
        run_ewm_op op (NDArray a) com span mp tr
        = run_ewm_op op (NDArray a) com span mp None).
Proof.
  destruct tr as [rule |]; [| split; reflexivity].
  split; intros op; destruct op; reflexivity.
Qed.

(** [_first_valid_index] on an array that is not empty returns the position
    of the first entry that is not NaN, every entry before it being NaN; it
    returns 0 when every entry is NaN; on an empty array numpy's [argmax]
    raises. *)
Theorem first_valid_index_spec (x : float) (arr : list float) :
  _first_valid_index [] = raise ValueError
  /\ exists i : nat,
       _first_valid_index (x :: arr) = ret i
       /\ ((exists y, (x :: arr) !! i = Some y /\ isnan y = false
                      /\ forall j z, (j < i)%nat -> (x :: arr) !! j = Some z ->
                                     isnan z = true)
           \/ (i = 0%nat /\ Forall (fun z => isnan z = true) (x :: arr))).
Proof.
  split; [reflexivity |].
  unfold _first_valid_index, Np.argmax. cbn [map].
  change (negb (isnan x) :: map (fun x0 => negb (isnan x0)) arr)
    with (map (fun x0 => negb (isnan x0)) (x :: arr)).
  set (l := x :: arr).
  destruct (list_find (fun b => b = true) (map (fun x0 => negb (isnan x0)) l))
    as [[i b] |] eqn:E.
  - exists i. split; [reflexivity |]. left.
    apply list_find_Some in E as (Hi & -> & Hbefore).
    change (map ?f ?l) with (f <$> l) in Hi, Hbefore.
    rewrite list_lookup_fmap in Hi.
    destruct (l !! i) as [y |] eqn:Ey; [| discriminate].
    exists y. split; [reflexivity |]. cbn in Hi. injection Hi as Hy.
    split; [now destruct (isnan y) |].
    intros j z Hj Hz. specialize (Hbefore j (negb (isnan z))).
    rewrite list_lookup_fmap, Hz in Hbefore.
    specialize (Hbefore eq_refl Hj). now destruct (isnan z).
  - exists 0%nat. split; [reflexivity |]. right. split; [reflexivity |].
    apply list_find_None in E. apply Forall_forall. intros z Hz.
    rewrite Forall_forall in E.
    specialize (E (negb (isnan z))).
    destruct (isnan z) eqn:Ez; [reflexivity |]. exfalso.
    apply E; [| reflexivity].
    apply list_elem_of_In, in_map_iff. exists z. split; [now rewrite Ez |].
    now apply list_elem_of_In.
Qed.
End Moments.

(** ** Concrete inputs *)


(** C6, as stated, fails for [ewmcov]: called with neither [com] nor [span]
    on two raw arrays, it has multiplied and added the arrays five times when
    the configuration error is raised; and on operands of different kinds the
    exception raised is the one of the alignment. *)
Lemma ewmcov_config_error_is_late :
  ewmcov asfreq_id (NDArray (Arr1 [of_Z 1; of_Z 2]))
         (NDArray (Arr1 [of_Z 1; of_Z 3])) None None 0 false None
  = ([EvMul; EvAdd; EvMul; EvAdd; EvMul],
     inl (Exception "Must pass either com or span"))
  /\ res (ewmcov asfreq_id (Series [0] [of_Z 1]) (NDArray (Arr1 [of_Z 1]))
            None None 0 false None)
     = inl (Exception "Input arrays must be of the same type!").
Proof. split; reflexivity. Qed.

Lemma ewm_config_error_witness :
  config_error None None = Some (Exception "Must pass either com or span")
  /\ ewma asfreq_id (NDArray (Arr1 [of_Z 1; of_Z 2])) None None 0 None
     = raise (Exception "Must pass either com or span").
Proof.
  split; [reflexivity |].
  apply (ewm_config_error asfreq_id None None
           (Exception "Must pass either com or span") eq_refl).
Defined.

(** C1: [ewma] with [min_periods = 1] on the array [1, 2, 3] (no missing
    value, first valid position 0) with [com = 1]: the output at the first
    valid position is missing, not the input value 1; one output is forced to
    missing where [min_periods - 1 = 0] are announced. *)
Lemma ewma_min_periods_one :
  res (ewma asfreq_id (NDArray (Arr1 [of_Z 1; of_Z 2; of_Z 3]))
         (Some one) None 1 None)
  = inr (NDArray (Arr1 [nan; div (of_Z 3) (of_Z 2); div (of_Z 9) (of_Z 4)]))
  /\ res (ewma asfreq_id (NDArray (Arr1 [of_Z 1; of_Z 2; of_Z 3]))
            (Some one) None 0 None)
     = inr (NDArray (Arr1 [of_Z 1; div (of_Z 3) (of_Z 2); div (of_Z 9) (of_Z 4)])).
Proof. split; vm_compute; reflexivity. Qed.

(** C2, as stated, fails at [com = 0]: the specification's formula
    propagates the IEEE quotient (here into NaN outputs), the code raises
    [ZeroDivisionError]; so it does for [span = 1]. *)
Lemma ewmvar_com_zero_raises :
  res (ewmvar asfreq_id (NDArray (Arr1 [of_Z 1; of_Z 2; of_Z 4]))
         (Some zero) None 0 false None)
  = inl ZeroDivisionError
  /\ res (ewmvar asfreq_id (NDArray (Arr1 [of_Z 1; of_Z 2; of_Z 4]))
            None (Some one) 0 false None)
     = inl ZeroDivisionError
  /\ res (ewmvar_spec asfreq_id (NDArray (Arr1 [of_Z 1; of_Z 2; of_Z 4]))
            zero 0 false)
     = inr (NDArray (Arr1 [nan; nan; nan])).
Proof. repeat split; vm_compute; reflexivity. Qed.

Lemma ewmvar_bias_correction_witness :
  (_get_center_of_mass (Some one) None = ret one
   /\ is_zero (mul two one) = false
   /\ ewmvar asfreq_id (NDArray (Arr1 [of_Z 1; of_Z 2; of_Z 4]))
        (Some one) None 0 false None
      = (arg ← _conv_timerule asfreq_id
                 (NDArray (Arr1 [of_Z 1; of_Z 2; of_Z 4])) None;
         ewmvar_spec asfreq_id arg one 0 false))
  /\ (_get_center_of_mass None (Some one) = ret zero
      /\ is_zero (mul two zero) = true
      /\ ewmvar asfreq_id (NDArray (Arr1 [of_Z 1; of_Z 2; of_Z 4]))
           None (Some one) 0 false None
         = (arg ← _conv_timerule asfreq_id
                    (NDArray (Arr1 [of_Z 1; of_Z 2; of_Z 4])) None;
            _ ← ewmvar_spec asfreq_id arg zero 0 true;
            raise ZeroDivisionError)).
Proof.
  split; (split; [reflexivity | split; [reflexivity |]]).
  - apply (ewmvar_bias_correction asfreq_id _ (Some one) None 0 None one
             eq_refl); reflexivity.
  - apply (ewmvar_bias_correction asfreq_id _ None (Some one) 0 None zero
             eq_refl); reflexivity.
Defined.

(** C4: a DataFrame paired with a Series.  The reducer, here the one that
    returns its first operand as it received it, is handed the column
    [1, 2] although the Series is missing at the second position; between
    two DataFrames, and between two Series, the same position reaches it
    missing. *)
Lemma flex_frame_series_unmasked :
  res (_flex_binary_moment (DataFrame [0; 1] ["a"] [[of_Z 1; of_Z 2]])
         (Series [0; 1] [of_Z 1; nan]) (fun X Y => ret X))
  = inr (DataFrame [0; 1] ["a"] [[of_Z 1; of_Z 2]])
  /\ res (_flex_binary_moment (DataFrame [0; 1] ["a"] [[of_Z 1; of_Z 2]])
            (DataFrame [0; 1] ["a"] [[of_Z 1; nan]]) (fun X Y => ret X))
     = inr (DataFrame [0; 1] ["a"] [[of_Z 1; nan]])
  /\ res (_flex_binary_moment (Series [0; 1] [of_Z 1; of_Z 2])
            (Series [0; 1] [of_Z 1; nan]) (fun X Y => ret X))
     = inr (Series [0; 1] [of_Z 1; nan]).
Proof. repeat split; vm_compute; reflexivity. Qed.

(** C7, as stated, fails at [com = 1] on [x = 1, 2] and [y = 1, 3]: the
    correlation is 1 at the second position, the quotient with the default
    [ewmcov] is 1.5; called with a span, the default [ewmcov] raises where
    [ewmcorr] returns.  And with [y] missing at a position where [x] is not,
    even the uncorrected covariance over the variances of the operands as
    given differs from the correlation. *)
Lemma ewmcorr_not_default_ewmcov :
  res (ewmcorr asfreq_id (NDArray (Arr1 [of_Z 1; of_Z 2]))
         (NDArray (Arr1 [of_Z 1; of_Z 3])) (Some one) None 0 None)
  = inr (NDArray (Arr1 [nan; of_Z 1]))
  /\ res (ewmcorr_spec asfreq_id (NDArray (Arr1 [of_Z 1; of_Z 2]))
            (NDArray (Arr1 [of_Z 1; of_Z 3])) (Some one) None 0 None)
     = inr (NDArray (Arr1 [nan; div (of_Z 3) (of_Z 2)]))
  /\ res (ewmcorr_spec asfreq_id (NDArray (Arr1 [of_Z 1; of_Z 2]))
            (NDArray (Arr1 [of_Z 1; of_Z 3])) None (Some (of_Z 3)) 0 None)
     = inl TypeError
  /\ res (ewmcorr asfreq_id (NDArray (Arr1 [of_Z 1; of_Z 2; of_Z 4]))
            (NDArray (Arr1 [nan; of_Z 1; of_Z 3])) (Some one) None 0 None)
     = inr (NDArray (Arr1 [nan; nan; of_Z 1]))
  /\ res (cov ← ewmcov asfreq_id (NDArray (Arr1 [of_Z 1; of_Z 2; of_Z 4]))
                  (NDArray (Arr1 [nan; of_Z 1; of_Z 3])) (Some one) None 0 true None;
          vx ← ewmvar asfreq_id (NDArray (Arr1 [of_Z 1; of_Z 2; of_Z 4]))
                 (Some one) None 0 true None;
          vy ← ewmvar asfreq_id (NDArray (Arr1 [nan; of_Z 1; of_Z 3]))
                 (Some one) None 0 true None;
          vv ← binop EvMul mul vx vy;
          den ← scalar_op EvSqrt sqrt vv;
          binop EvDiv div cov den)
     = inr (NDArray (Arr1 [nan; nan;
                           S754_finite false 6933745219159078 (-53)])).
Proof. repeat split; vm_compute; reflexivity. Qed.

Lemma sample_frame_wf : wf sample_frame.
Proof.
  cbn. split; [discriminate |]. split; [reflexivity |].
  repeat constructor.
Defined.

Lemma rolling_count_never_missing_witness :
  res (_conv_timerule asfreq_id sample_frame None) = inr sample_frame
  /\ wf sample_frame
  /\ exists out : data,
       res (rolling_count asfreq_id sample_frame 2 None) = inr out
       /\ same_shape sample_frame out
       /\ (forall (c : list float) (x : float),
             c ∈ columns_data out -> x ∈ c -> isnan x = false).
Proof.
  split; [reflexivity |]. split; [exact sample_frame_wf |].
  destruct (rolling_count_never_missing asfreq_id sample_frame sample_frame 2
              None eq_refl sample_frame_wf) as (out & Hr & _ & Hs & Hn & _).
  exists out. auto.
Defined.


